(** * Identity reconciliation (src/main.py): a shallow embedding

    The program keeps one table of [Contact] rows and exposes one
    operation, [identify_contact], which links rows that share an email
    address or a phone number.  The table is modelled as the list of its
    rows in rowid order, ORM objects as rows addressed by their [id], and
    the session's pending attribute writes as an in-memory copy of the
    table that is written back on commit. *)

From Stdlib Require Import ZArith List String Bool Lia Permutation Sorted.
Import ListNotations.
Local Open Scope Z_scope.
Local Open Scope list_scope.

(** ** Data model *)

Inductive LinkPrecedence : Type :=
| primary
| secondary.

Record Contact : Type := mkContact {
  id : Z;
  phoneNumber : option string;
  email : option string;
  linkedId : option Z;
  linkPrecedence : LinkPrecedence;
  createdAt : Z;
  updatedAt : Z
}.

(** The [contact] table: committed rows, oldest rowid first. *)
Definition Store : Type := list Contact.

Record IdentifyRequest : Type := mkRequest {
  req_email : option string;
  req_phoneNumber : option string
}.

Record ContactResponseData : Type := mkResponse {
  primaryContatctId : Z;
  emails : list string;
  phoneNumbers : list string;
  secondaryContactIds : list Z
}.

(** What a call can raise: the explicit [HTTPException] (with its status
    code) and the [IndexError] of [primary_contacts[0]] on an empty list. *)
Inductive Exception : Type :=
| HTTPException (status_code : Z)
| IndexError.

Definition HTTP_400_BAD_REQUEST : Z := 400.

(** ** Small helpers for the Python and SQL primitives *)

Definition LinkPrecedence_eqb (a b : LinkPrecedence) : bool :=
  match a, b with
  | primary, primary => true
  | secondary, secondary => true
  | _, _ => false
  end.

Definition option_eqb {A : Type} (eqb : A -> A -> bool) (a b : option A) : bool :=
  match a, b with
  | Some x, Some y => eqb x y
  | None, None => true
  | _, _ => false
  end.

Definition Contact_eqb (a b : Contact) : bool :=
  (id a =? id b)
  && option_eqb String.eqb (phoneNumber a) (phoneNumber b)
  && option_eqb String.eqb (email a) (email b)
  && option_eqb Z.eqb (linkedId a) (linkedId b)
  && LinkPrecedence_eqb (linkPrecedence a) (linkPrecedence b)
  && (createdAt a =? createdAt b)
  && (updatedAt a =? updatedAt b).

(** Python truthiness of an [Optional[str]]: [None] and the empty string
    are falsy.  [truthy o] is the string the guarded branch then sees. *)
Definition truthy (o : option string) : option string :=
  match o with
  | Some s => if String.eqb s EmptyString then None else Some s
  | None => None
  end.

Definition is_truthy (o : option string) : bool :=
  match truthy o with Some _ => true | None => false end.

(** SQL [column = value] for a non-NULL value: NULL never matches. *)
Definition sql_eq_str (col : option string) (v : string) : bool :=
  match col with Some s => String.eqb s v | None => false end.

Definition sql_eq_int (col : option Z) (v : Z) : bool :=
  match col with Some i => i =? v | None => false end.

Definition has_id (i : Z) (c : Contact) : bool := id c =? i.

(** [x in l] on ORM objects: identity, that is the same row. *)
Definition contact_in (c : Contact) (l : list Contact) : bool :=
  existsb (has_id (id c)) l.

(** [list(dict.fromkeys(l))]: first occurrences, in order. *)
Fixpoint dict_fromkeys_from (seen : list Contact) (l : list Contact) : list Contact :=
  match l with
  | [] => []
  | c :: l' =>
      if contact_in c seen then dict_fromkeys_from seen l'
      else c :: dict_fromkeys_from (c :: seen) l'
  end.

Definition dict_fromkeys (l : list Contact) : list Contact :=
  dict_fromkeys_from [] l.

(** [sorted(l, key=lambda c: c.createdAt)]: Python's sort is stable, so the
    result is the one of a stable insertion sort. *)
Fixpoint insert_by_createdAt (c : Contact) (l : list Contact) : list Contact :=
  match l with
  | [] => [c]
  | d :: l' =>
      if createdAt c <=? createdAt d then c :: d :: l'
      else d :: insert_by_createdAt c l'
  end.

Fixpoint sorted_by_createdAt (l : list Contact) : list Contact :=
  match l with
  | [] => []
  | c :: l' => insert_by_createdAt c (sorted_by_createdAt l')
  end.

(** [sorted(list(set(ids)))] on integers. *)
Fixpoint insert_int (i : Z) (l : list Z) : list Z :=
  match l with
  | [] => [i]
  | j :: l' => if i <=? j then i :: j :: l' else j :: insert_int i l'
  end.

Fixpoint sorted_int (l : list Z) : list Z :=
  match l with
  | [] => []
  | i :: l' => insert_int i (sorted_int l')
  end.

Fixpoint set_int (l : list Z) : list Z :=
  match l with
  | [] => []
  | i :: l' => if existsb (Z.eqb i) l' then set_int l' else i :: set_int l'
  end.

(** A Python [set] of strings is iterated in an order fixed by the hashes
    of its elements, which the program does not control.  The interface
    below is all the code may rely on: iterating the set built by adding
    the values of [l] yields each distinct value once. *)
Class PySet : Type := {
  set_iter : list string -> list string;
  set_iter_NoDup : forall l, NoDup (set_iter l);
  set_iter_In : forall l x, In x (set_iter l) <-> In x l
}.

(** ** Attribute writes on ORM objects *)

Definition with_linkedId (v : option Z) (c : Contact) : Contact :=
  mkContact (id c) (phoneNumber c) (email c) v (linkPrecedence c)
            (createdAt c) (updatedAt c).

Definition with_linkPrecedence (v : LinkPrecedence) (c : Contact) : Contact :=
  mkContact (id c) (phoneNumber c) (email c) (linkedId c) v
            (createdAt c) (updatedAt c).

Definition with_updatedAt (v : Z) (c : Contact) : Contact :=
  mkContact (id c) (phoneNumber c) (email c) (linkedId c) (linkPrecedence c)
            (createdAt c) v.

(** The session's identity map: the in-memory state of every row.  A write
    to the object of row [i] is seen through every reference to it. *)
Definition Session : Type := list Contact.

Definition set_attr (i : Z) (f : Contact -> Contact) (mem : Session) : Session :=
  map (fun c => if has_id i c then f c else c) mem.

Definition deref (mem : Session) (i : Z) : list Contact :=
  match find (has_id i) mem with
  | Some c => [c]
  | None => []
  end.

(** ** Queries and relationships

    All of them read the committed table, since the session is created
    with [autoflush=False]; rows come back in rowid order.  Lines 115 and
    117: *)

Definition query_email (db : Store) (e : string) : list Contact :=
  filter (fun c => sql_eq_str (email c) e) db.

Definition query_phoneNumber (db : Store) (p : string) : list Contact :=
  filter (fun c => sql_eq_str (phoneNumber c) p) db.

(** [c.secondary_contacts]: the rows whose [linkedId] is [c.id]. *)
Definition secondary_contacts (db : Store) (c : Contact) : list Contact :=
  filter (fun d => sql_eq_int (linkedId d) (id c)) db.

(** [c.primary_contact]: the row [c.linkedId] refers to, if any. *)
Definition primary_contact (db : Store) (c : Contact) : option Contact :=
  match linkedId c with
  | Some i => find (has_id i) db
  | None => None
  end.

Definition is_primary (c : Contact) : bool :=
  LinkPrecedence_eqb (linkPrecedence c) primary.

Definition is_secondary (c : Contact) : bool :=
  LinkPrecedence_eqb (linkPrecedence c) secondary.

(** ** [identify_contact], step by step *)

(** Lines 113-117. *)
Definition matching_contacts (req : IdentifyRequest) (db : Store) : list Contact :=
  (match truthy (req_email req) with
   | Some e => query_email db e
   | None => []
   end)
  ++
  (match truthy (req_phoneNumber req) with
   | Some p => query_phoneNumber db p
   | None => []
   end).

(** Line 120. *)
Definition unique_matching_contacts (req : IdentifyRequest) (db : Store) : list Contact :=
  dict_fromkeys (matching_contacts req db).

(** Lines 152-155: the loop over the matched secondaries. *)
Definition trace_back (db : Store) (acc : list Contact) (sec_contact : Contact) : list Contact :=
  match primary_contact db sec_contact with
  | Some p => if contact_in p acc then acc else acc ++ [p]
  | None => acc
  end.

(** Lines 146-155: the list handed to the final sort. *)
Definition candidate_primaries (req : IdentifyRequest) (db : Store) : list Contact :=
  let unique := unique_matching_contacts req db in
  let primary_contacts := sorted_by_createdAt (filter is_primary unique) in
  let secondary_matches := filter is_secondary unique in
  fold_left (trace_back db) secondary_matches primary_contacts.

(** Lines 158-161. *)
Definition primary_contacts (req : IdentifyRequest) (db : Store) : list Contact :=
  sorted_by_createdAt (dict_fromkeys (candidate_primaries req db)).

(** Lines 180-182: re-link one child. *)
Definition relink_child (main_id : Z) (st : Session * list Z) (child : Contact)
  : Session * list Z :=
  (set_attr (id child) (with_linkedId (Some main_id)) (fst st),
   snd st ++ [id child]).

(** Lines 174-182: one iteration of the loop over [primary_contacts[1:]]. *)
Definition demote (db : Store) (main_id : Z) (st : Session * list Z) (contact : Contact)
  : Session * list Z :=
  let mem := set_attr (id contact) (with_linkedId (Some main_id)) (fst st) in
  let mem := set_attr (id contact) (with_linkPrecedence secondary) mem in
  let contacts_to_update := snd st ++ [id contact] in
  fold_left (relink_child main_id) (secondary_contacts db contact)
            (mem, contacts_to_update).

(** Lines 171-184: the in-memory state after the merge and the objects
    collected in [contacts_to_update]. *)
Definition merge (db : Store) (main_primary_contact : Contact)
           (primary_contacts : list Contact) : Session * list Z :=
  if (1 <? List.length primary_contacts)%nat
  then fold_left (demote db (id main_primary_contact)) (tl primary_contacts) (db, [])
  else (db, []).

(** Line 190. *)
Definition all_related_contacts (db : Store) (main_primary_contact : Contact)
           (st : Session * list Z) : list Contact :=
  [main_primary_contact] ++ secondary_contacts db main_primary_contact
    ++ flat_map (deref (fst st)) (snd st).

Definition truthy_values (f : Contact -> option string) (l : list Contact) : list string :=
  flat_map (fun c => match truthy (f c) with Some s => [s] | None => [] end) l.

(** [v and v not in existing]. *)
Definition is_new (v : option string) (existing : list string) : bool :=
  match truthy v with
  | Some s => negb (existsb (String.eqb s) existing)
  | None => false
  end.

(** Lines 192-199. *)
Definition new_information (req : IdentifyRequest) (related : list Contact) : bool :=
  let existing_emails := truthy_values email related in
  let existing_phones := truthy_values phoneNumber related in
  is_new (req_email req) existing_emails || is_new (req_phoneNumber req) existing_phones.

(** The id the table gives the next inserted row: one more than the
    largest id in use, 1 on the empty table.  (This is the database's rule
    as long as the ids in use are positive and below the largest rowid,
    which holds of every table built through the endpoint.) *)
Definition next_id (db : Store) : Z := 1 + fold_right Z.max 0 (map id db).

(** INSERT of a new row: [id], [createdAt] and [updatedAt] are assigned by
    the database. *)
Definition insert_row (now : Z) (db : Store) (e p : option string)
           (l : option Z) (prec : LinkPrecedence) : Contact :=
  mkContact (next_id db) p e l prec now now.

(** UPDATE of a row whose object carries a net change: the new values are
    written and [onupdate] stamps [updatedAt]. *)
Definition flush_row (now : Z) (old new : Contact) : Contact :=
  if Contact_eqb old new then old else with_updatedAt now new.

Definition flush (now : Z) (db : Store) (mem : Session) : Store :=
  map (fun on => flush_row now (fst on) (snd on)) (combine db mem).

(** [db.refresh(c)]: reload the row of [c]. *)
Definition refresh (db : Store) (c : Contact) : Contact :=
  match find (has_id (id c)) db with
  | Some c' => c'
  | None => c
  end.

Section Response.

Context {PS : PySet}.

(** Lines 232-235 and 238-241. *)
Definition ordered_values (own : option string) (group_values : list string) : list string :=
  (match truthy own with Some s => [s] | None => [] end)
  ++ filter (fun e => negb (option_eqb String.eqb (Some e) own)) (set_iter group_values).

(** Lines 216-251. *)
Definition build_response (db : Store) (main_primary_contact : Contact) : ContactResponseData :=
  let main := refresh db main_primary_contact in
  let final_group := [main] ++ secondary_contacts db main in
  let all_emails := truthy_values email final_group in
  let all_phones := truthy_values phoneNumber final_group in
  let secondary_ids := map id (filter is_secondary final_group) in
  mkResponse (id main)
             (ordered_values (email main) all_emails)
             (ordered_values (phoneNumber main) all_phones)
             (sorted_int (set_int secondary_ids)).

(** The endpoint (lines 95-253).  [now] is the value of the database
    clock ([func.now()]) while the request is served; the statements of
    one commit are taken to fall within one tick of it.  The result pairs
    what the call returns or raises with the committed table afterwards;
    an exception leaves the table as it was, since nothing has been
    committed by then. *)
Definition identify_contact (now : Z) (req : IdentifyRequest) (db : Store)
  : (Exception + ContactResponseData) * Store :=
  if negb (is_truthy (req_email req)) && negb (is_truthy (req_phoneNumber req))
  then (inl (HTTPException HTTP_400_BAD_REQUEST), db)
  else
    match unique_matching_contacts req db with
    | [] =>
        let new_contact :=
          insert_row now db (req_email req) (req_phoneNumber req) None primary in
        (inr (mkResponse (id new_contact)
                (match truthy (req_email req) with Some e => [e] | None => [] end)
                (match truthy (req_phoneNumber req) with Some p => [p] | None => [] end)
                []),
         db ++ [new_contact])
    | _ :: _ =>
        match primary_contacts req db with
        | [] => (inl IndexError, db)
        | main_primary_contact :: _ =>
            let st := merge db main_primary_contact (primary_contacts req db) in
            let related := all_related_contacts db main_primary_contact st in
            let updated := flush now db (fst st) in
            let db' :=
              if new_information req related
              then updated ++ [insert_row now db (req_email req) (req_phoneNumber req)
                                          (Some (id main_primary_contact)) secondary]
              else updated in
            (inr (build_response db' main_primary_contact), db')
        end
    end.

End Response.

(** ** Sequences of requests *)

Section Runs.

Context {PS : PySet}.

(** The committed table after serving the requests in turn, each with the
    clock value the database had when it was served. *)
Definition run (reqs : list (Z * IdentifyRequest)) (db : Store) : Store :=
  fold_left (fun db nr => snd (identify_contact (fst nr) (snd nr) db)) reqs db.

(** The table before the first request and after each one. *)
Fixpoint history (reqs : list (Z * IdentifyRequest)) (db : Store) : list Store :=
  db :: match reqs with
        | [] => []
        | nr :: reqs' => history reqs' (snd (identify_contact (fst nr) (snd nr) db))
        end.

End Runs.

(** ** Notions used in the statements *)

(** The row stored under an id. *)
Definition stored (db : Store) (i : Z) : option Contact := find (has_id i) db.

Fixpoint distinct_int (l : list Z) : bool :=
  match l with
  | [] => true
  | i :: l' => negb (existsb (Z.eqb i) l') && distinct_int l'
  end.

(** A primary row has no [linkedId]; a secondary row has one, and it is
    the id of a primary row. *)
Definition link_ok (db : Store) (c : Contact) : bool :=
  match linkPrecedence c, linkedId c with
  | primary, None => true
  | secondary, Some i =>
      match stored db i with
      | Some p => is_primary p
      | None => false
      end
  | _, _ => false
  end.

(** The data-model invariants of a table: ids are unique and every row's
    link is as [link_ok] says. *)
Definition wf_storeb (db : Store) : bool :=
  distinct_int (map id db) && forallb (link_ok db) db.

Definition wf_store (db : Store) : Prop := wf_storeb db = true.

(** The owning primary of a matched row. *)
Definition owner (db : Store) (c : Contact) : option Contact :=
  match linkPrecedence c with
  | primary => Some c
  | secondary => primary_contact db c
  end.

(** At least one field of the request is supplied (is truthy). *)
Definition supplied (req : IdentifyRequest) : Prop :=
  is_truthy (req_email req) = true \/ is_truthy (req_phoneNumber req) = true.

(** No row carries the supplied email or the supplied phone number. *)
Definition no_match (req : IdentifyRequest) (db : Store) : Prop :=
  forall c, In c db ->
    (forall e, truthy (req_email req) = Some e -> email c <> Some e) /\
    (forall p, truthy (req_phoneNumber req) = Some p -> phoneNumber c <> Some p).

(** The request supplies an email no member of [group] has, or a phone
    number no member of [group] has. *)
Definition supplies_new_value (req : IdentifyRequest) (group : list Contact) : Prop :=
  (exists e, truthy (req_email req) = Some e /\
             forall c, In c group -> email c <> Some e) \/
  (exists p, truthy (req_phoneNumber req) = Some p /\
             forall c, In c group -> phoneNumber c <> Some p).

(** The identity group of a primary: the primary and the rows linked to it. *)
Definition group_of (db : Store) (main : Contact) : list Contact :=
  main :: secondary_contacts db main.

(** The distinct values of [l], each at its first occurrence. *)
Fixpoint first_seen_from (seen : list string) (l : list string) : list string :=
  match l with
  | [] => []
  | s :: l' =>
      if existsb (String.eqb s) seen then first_seen_from seen l'
      else s :: first_seen_from (s :: seen) l'
  end.

Definition first_seen (l : list string) : list string := first_seen_from [] l.

(** The order of values a response would have if the values other than
    the primary's own came in the order first met on the secondaries. *)
Definition first_encounter_order (own : option string) (f : Contact -> option string)
           (secondaries : list Contact) : list string :=
  (match truthy own with Some s => [s] | None => [] end)
  ++ filter (fun e => negb (option_eqb String.eqb (Some e) own))
            (first_seen (truthy_values f secondaries)).

(** How many times the value of field [f] of row [i] differs between one
    table of a history and the next. *)
Fixpoint mutations {A : Type} (eqb : A -> A -> bool) (f : Contact -> A)
         (i : Z) (h : list Store) : nat :=
  match h with
  | s :: ((s' :: _) as h') =>
      (match stored s i, stored s' i with
       | Some c, Some c' => if eqb (f c) (f c') then 0 else 1
       | _, _ => 0
       end + mutations eqb f i h')%nat
  | _ => 0%nat
  end.

(** A row keeps its identity and its data through attribute writes. *)
Definition same_data (c c' : Contact) : Prop :=
  id c' = id c /\ email c' = email c /\ phoneNumber c' = phoneNumber c /\
  createdAt c' = createdAt c.

(** The primary's own value, when it has one. *)
Definition own_value (o : option string) : list string :=
  match truthy o with Some s => [s] | None => [] end.

(** [l] lists the own value of [main] first (when present) and then, once
    each and in some order, the other values of field [f] in [group]; it
    has no duplicates. *)
Definition primary_first (f : Contact -> option string) (main : Contact)
           (group : list Contact) (l : list string) : Prop :=
  exists others,
    l = own_value (f main) ++ others /\
    NoDup l /\
    (forall s, truthy (f main) = Some s -> hd_error l = Some s) /\
    (forall s, In s others <->
               f main <> Some s /\ exists c, In c group /\ truthy (f c) = Some s).

(** The frame of a request: what may differ between a row [c] and its
    committed version [c'], given the absorbed primaries. *)
Definition frame (absorbed : list Contact) (c c' : Contact) : Prop :=
  id c' = id c /\ createdAt c' = createdAt c /\
  email c' = email c /\ phoneNumber c' = phoneNumber c /\
  (~ In c absorbed -> linkPrecedence c' = linkPrecedence c) /\
  (~ In c absorbed ->
   (forall r, In r absorbed -> linkedId c <> Some (id r)) -> c' = c).

(** [c'] is a later version of the row [c]: same identity and data, and
    secondary if [c] was. *)
Definition later_version (c c' : Contact) : Prop :=
  same_data c c' /\ (linkPrecedence c = secondary -> linkPrecedence c' = secondary).

(** ** Concrete tables and requests *)

Section ConcreteTables.

Local Open Scope string_scope.

Definition obs (e p : string) : IdentifyRequest := mkRequest (Some e) (Some p).

(** Two primaries created within the same clock tick. *)
Definition tie_requests : list (Z * IdentifyRequest) :=
  [(0, obs "a@x.com" "1"); (0, obs "b@x.com" "2")].

Definition tie_store : Store :=
  [mkContact 1 (Some "1") (Some "a@x.com") None primary 0 0;
   mkContact 2 (Some "2") (Some "b@x.com") None primary 0 0].

Definition tie_request : IdentifyRequest := obs "b@x.com" "1".

(** A primary with two secondaries, each carrying an email of its own. *)
Definition fan_requests : list (Z * IdentifyRequest) :=
  [(1, obs "a@x.com" "1"); (2, obs "b@x.com" "1"); (3, obs "c@x.com" "1")].

Definition fan_store : Store :=
  [mkContact 1 (Some "1") (Some "a@x.com") None primary 1 1;
   mkContact 2 (Some "1") (Some "b@x.com") (Some 1) secondary 2 2;
   mkContact 3 (Some "1") (Some "c@x.com") (Some 1) secondary 3 3].

Definition fan_request : IdentifyRequest := mkRequest (Some "a@x.com") None.

(** Three primaries, the third already merged into the second. *)
Definition chain_requests : list (Z * IdentifyRequest) :=
  [(1, obs "a@x.com" "1"); (2, obs "b@x.com" "2"); (3, obs "c@x.com" "3");
   (4, obs "b@x.com" "3")].

Definition chain_store : Store :=
  [mkContact 1 (Some "1") (Some "a@x.com") None primary 1 1;
   mkContact 2 (Some "2") (Some "b@x.com") None primary 2 2;
   mkContact 3 (Some "3") (Some "c@x.com") (Some 2) secondary 3 4].

Definition chain_request : IdentifyRequest := obs "a@x.com" "2".

Definition repoint_requests : list (Z * IdentifyRequest) :=
  (chain_requests ++ [(5, chain_request)])%list.

Definition emails_of_response (PS : PySet) (now : Z) (req : IdentifyRequest)
           (db : Store) : list string :=
  match fst (identify_contact now req db) with
  | inr resp => emails resp
  | inl _ => []
  end.

(** [chain_request] served on [chain_store] at clock value 5. *)
Definition chain_store_after : Store :=
  [mkContact 1 (Some "1") (Some "a@x.com") None primary 1 1;
   mkContact 2 (Some "2") (Some "b@x.com") (Some 1) secondary 2 5;
   mkContact 3 (Some "3") (Some "c@x.com") (Some 1) secondary 3 5].

Definition chain_response : ContactResponseData :=
  mkResponse 1 ["a@x.com"; "b@x.com"; "c@x.com"] ["1"; "2"; "3"] [2; 3].

(** A secondary whose [linkedId] is null. *)
Definition orphan_store : Store :=
  [mkContact 1 None (Some "a@x.com") None secondary 0 0].

Definition orphan_request : IdentifyRequest := mkRequest (Some "a@x.com") None.

End ConcreteTables.

(** ** Further notions used in the statements *)

(** The row carries the supplied email or the supplied phone number. *)
Definition matches (req : IdentifyRequest) (c : Contact) : Prop :=
  (exists e, truthy (req_email req) = Some e /\ email c = Some e) \/
  (exists p, truthy (req_phoneNumber req) = Some p /\ phoneNumber c = Some p).

(** The members of the identity groups of the given primaries. *)
Definition groups_of (db : Store) (prims : list Contact) : list Contact :=
  flat_map (group_of db) prims.

(** A matched row that resolves to no primary: a secondary whose
    [linkedId] is null or refers to no row. *)
Definition orphan (db : Store) (c : Contact) : Prop :=
  linkPrecedence c = secondary /\ primary_contact db c = None.

Definition not_younger (a b : Contact) : Prop := createdAt a <= createdAt b.

(** The ids are positive and below the largest 64-bit rowid: the tables
    on which the database assigns the largest id plus one, as [next_id]
    does. *)
Definition rowids_in_range (db : Store) : Prop :=
  forall i, In i (map id db) -> 0 < i < 9223372036854775807.

(** ** Row-wise reading of the merge loop

    Attribute writes never change a row's [id], so the loop of lines
    172-182 acts on each row of the session independently. *)

Definition relink_row (main_id : Z) (children : list Contact) (c : Contact) : Contact :=
  if contact_in c children then with_linkedId (Some main_id) c else c.

Definition demote_row (db : Store) (main_id : Z) (c : Contact) (contact : Contact) : Contact :=
  relink_row main_id (secondary_contacts db contact)
    (if has_id (id contact) c
     then with_linkPrecedence secondary (with_linkedId (Some main_id) c)
     else c).

Definition merge_row (db : Store) (main_id : Z) (rest : list Contact) (c : Contact) : Contact :=
  fold_left (demote_row db main_id) rest c.

(** Some row with the id of [c] is linked to a contact of [rest]. *)
Definition child_of (db : Store) (rest : list Contact) (c : Contact) : bool :=
  existsb (fun r => contact_in c (secondary_contacts db r)) rest.

(** The committed version of a row after the merge of [rest] into the
    primary [m]. *)
Definition commit_row (now : Z) (db : Store) (m : Z) (rest : list Contact)
           (c : Contact) : Contact :=
  flush_row now c (merge_row db m rest c).

(** The table committed by a request that resolved to [main :: rest]. *)
Definition committed (now : Z) (req : IdentifyRequest) (db : Store)
           (main : Contact) (rest : list Contact) : Store :=
  map (commit_row now db (id main) rest) db
  ++ (if new_information req
           (all_related_contacts db main (merge db main (main :: rest)))
      then [insert_row now db (req_email req) (req_phoneNumber req)
                       (Some (id main)) secondary]
      else []).

(** * Properties

    ** The two iteration orders used as instances of [PySet] *)

Lemma existsb_eqb_In (s : string) (l : list string) :
  existsb (String.eqb s) l = true <-> In s l.
Proof.
  rewrite existsb_exists. split.
  - intros [x [Hin Heq]]. apply String.eqb_eq in Heq. now subst.
  - intros Hin. exists s. split; [assumption | apply String.eqb_refl].
Qed.

Lemma first_seen_from_In (l seen : list string) (x : string) :
  In x (first_seen_from seen l) <-> In x l /\ ~ In x seen.
Proof.
  revert seen. induction l as [|s l IH]; intros seen; simpl.
  - tauto.
  - destruct (existsb (String.eqb s) seen) eqn:E.
    + apply existsb_eqb_In in E. rewrite IH. split.
      * tauto.
      * intros [[->|H] Hn]; tauto.
    + assert (Hs : ~ In s seen).
      { intros H. apply existsb_eqb_In in H. congruence. }
      simpl. rewrite IH. simpl. split.
      * intros [->|[H Hn]]; [tauto|]. split; [tauto|]. intros Hx. apply Hn. now right.
      * intros [[->|H] Hn]; [now left|].
        destruct (string_dec s x) as [->|Hne]; [now left|].
        right. split; [assumption|]. intros [Heq|Hx]; [congruence|tauto].
Qed.

Lemma first_seen_from_NoDup (l seen : list string) :
  NoDup (first_seen_from seen l).
Proof.
  revert seen. induction l as [|s l IH]; intros seen; simpl.
  - constructor.
  - destruct (existsb (String.eqb s) seen); [apply IH|].
    constructor; [|apply IH].
    rewrite first_seen_from_In. simpl. tauto.
Qed.

Lemma first_seen_NoDup (l : list string) : NoDup (first_seen l).
Proof. apply first_seen_from_NoDup. Qed.

Lemma first_seen_In (l : list string) (x : string) :
  In x (first_seen l) <-> In x l.
Proof.
  unfold first_seen. rewrite first_seen_from_In. simpl. tauto.
Qed.

(** Iteration in insertion order. *)
#[local] Instance insertion_order : PySet := {|
  set_iter := first_seen;
  set_iter_NoDup := first_seen_NoDup;
  set_iter_In := first_seen_In
|}.

Lemma rev_first_seen_NoDup (l : list string) : NoDup (rev (first_seen l)).
Proof.
  apply (Permutation_NoDup (Permutation_rev (first_seen l))).
  apply first_seen_NoDup.
Qed.

Lemma rev_first_seen_In (l : list string) (x : string) :
  In x (rev (first_seen l)) <-> In x l.
Proof.
  rewrite <- in_rev. apply first_seen_In.
Qed.

(** Iteration in the reverse of insertion order. *)
#[local] Instance reverse_order : PySet := {|
  set_iter := fun l => rev (first_seen l);
  set_iter_NoDup := rev_first_seen_NoDup;
  set_iter_In := rev_first_seen_In
|}.

(** ** Decidable equalities *)

Lemma has_id_true (i : Z) (c : Contact) : has_id i c = true <-> id c = i.
Proof. unfold has_id. apply Z.eqb_eq. Qed.

Lemma has_id_false (i : Z) (c : Contact) : has_id i c = false <-> id c <> i.
Proof. unfold has_id. apply Z.eqb_neq. Qed.

Lemma option_eqb_eq {A : Type} (eqb : A -> A -> bool)
      (Heqb : forall x y, eqb x y = true <-> x = y) (a b : option A) :
  option_eqb eqb a b = true <-> a = b.
Proof.
  destruct a as [x|], b as [y|]; simpl; try (split; congruence).
  rewrite Heqb. split; congruence.
Qed.

Lemma LinkPrecedence_eqb_eq (a b : LinkPrecedence) :
  LinkPrecedence_eqb a b = true <-> a = b.
Proof. destruct a, b; simpl; split; congruence. Qed.

Lemma is_primary_true (c : Contact) : is_primary c = true <-> linkPrecedence c = primary.
Proof. apply LinkPrecedence_eqb_eq. Qed.

Lemma is_secondary_true (c : Contact) : is_secondary c = true <-> linkPrecedence c = secondary.
Proof. apply LinkPrecedence_eqb_eq. Qed.

Lemma Contact_eqb_eq (a b : Contact) : Contact_eqb a b = true <-> a = b.
Proof.
  unfold Contact_eqb. rewrite !andb_true_iff.
  rewrite !Z.eqb_eq, LinkPrecedence_eqb_eq.
  rewrite !(option_eqb_eq String.eqb String.eqb_eq).
  rewrite (option_eqb_eq Z.eqb Z.eqb_eq).
  destruct a, b; simpl. split.
  - intros [[[[[[-> ->] ->] ->] ->] ->] ->]. reflexivity.
  - intros H. injection H as -> -> -> -> -> -> ->. repeat split.
Qed.

Lemma Contact_eqb_refl (c : Contact) : Contact_eqb c c = true.
Proof. now apply Contact_eqb_eq. Qed.

Lemma contact_in_true (c : Contact) (l : list Contact) :
  contact_in c l = true <-> exists d, In d l /\ id d = id c.
Proof.
  unfold contact_in. rewrite existsb_exists.
  split; intros [d [Hin Hid]]; exists d; (split; [assumption|]);
    now apply has_id_true.
Qed.

Lemma contact_in_false (c : Contact) (l : list Contact) :
  contact_in c l = false <-> forall d, In d l -> id d <> id c.
Proof.
  split.
  - intros H d Hin Hid.
    assert (contact_in c l = true) by (apply contact_in_true; eauto).
    congruence.
  - intros H. destruct (contact_in c l) eqn:E; [|reflexivity].
    apply contact_in_true in E. destruct E as [d [Hin Hid]].
    now apply H in Hin.
Qed.

Lemma contact_in_same_id (c d : Contact) (l : list Contact) :
  id c = id d -> contact_in c l = contact_in d l.
Proof. unfold contact_in. now intros ->. Qed.

(** ** The merge loop, row by row *)

Lemma relink_children_fst (m : Z) (children : list Contact) (st : Session * list Z) :
  fst (fold_left (relink_child m) children st) = map (relink_row m children) (fst st).
Proof.
  revert st. induction children as [|ch children IH]; intros st; simpl.
  - unfold relink_row. simpl. now rewrite map_id.
  - rewrite IH. simpl. unfold set_attr. rewrite map_map.
    apply map_ext. intros c. unfold relink_row, contact_in, has_id. simpl.
    rewrite (Z.eqb_sym (id ch) (id c)).
    destruct (id c =? id ch) eqn:E; simpl.
    + now destruct (existsb (fun d => id d =? id c) children).
    + reflexivity.
Qed.

Lemma demote_fst (db : Store) (m : Z) (st : Session * list Z) (contact : Contact) :
  fst (demote db m st contact) = map (fun c => demote_row db m c contact) (fst st).
Proof.
  unfold demote. rewrite relink_children_fst. simpl.
  unfold set_attr. rewrite !map_map. apply map_ext. intros c.
  unfold demote_row. f_equal.
  destruct (has_id (id contact) c) eqn:E; simpl.
  - unfold has_id in *. simpl. now rewrite E.
  - now rewrite E.
Qed.

Lemma merge_loop_fst (db : Store) (m : Z) (rest : list Contact) (st : Session * list Z) :
  fst (fold_left (demote db m) rest st) = map (merge_row db m rest) (fst st).
Proof.
  revert st. induction rest as [|r rest IH]; intros st; simpl.
  - unfold merge_row. simpl. now rewrite map_id.
  - rewrite IH, demote_fst, map_map. reflexivity.
Qed.

Lemma merge_fst (db : Store) (main : Contact) (rest : list Contact) :
  fst (merge db main (main :: rest)) = map (merge_row db (id main) rest) db.
Proof.
  unfold merge. destruct rest as [|r rest].
  - simpl. unfold merge_row. simpl. now rewrite map_id.
  - change (1 <? List.length (main :: r :: rest))%nat with true.
    cbv iota. simpl tl. apply merge_loop_fst.
Qed.

Lemma same_data_refl (c : Contact) : same_data c c.
Proof. repeat split. Qed.

Lemma same_data_trans (a b c : Contact) :
  same_data a b -> same_data b c -> same_data a c.
Proof.
  unfold same_data. intros (H1 & H2 & H3 & H4) (K1 & K2 & K3 & K4).
  repeat split; congruence.
Qed.

Lemma demote_row_same_data (db : Store) (m : Z) (c r : Contact) :
  same_data c (demote_row db m c r) /\ updatedAt (demote_row db m c r) = updatedAt c.
Proof.
  unfold demote_row, relink_row.
  destruct (has_id (id r) c);
    match goal with |- context [contact_in ?x ?l] => destruct (contact_in x l) end;
    repeat split.
Qed.

Lemma demote_row_linkPrecedence (db : Store) (m : Z) (c r : Contact) :
  linkPrecedence (demote_row db m c r)
  = if has_id (id r) c then secondary else linkPrecedence c.
Proof.
  unfold demote_row, relink_row.
  destruct (has_id (id r) c);
    match goal with |- context [contact_in ?x ?l] => destruct (contact_in x l) end;
    reflexivity.
Qed.

Lemma demote_row_linkedId (db : Store) (m : Z) (c r : Contact) :
  linkedId (demote_row db m c r)
  = if has_id (id r) c || contact_in c (secondary_contacts db r)
    then Some m else linkedId c.
Proof.
  unfold demote_row, relink_row.
  destruct (has_id (id r) c) eqn:E; simpl.
  - match goal with |- context [contact_in ?x ?l] => destruct (contact_in x l) end;
      reflexivity.
  - destruct (contact_in c (secondary_contacts db r)); reflexivity.
Qed.

Lemma child_of_same_id (db : Store) (rest : list Contact) (c d : Contact) :
  id c = id d -> child_of db rest c = child_of db rest d.
Proof.
  intros Hid. unfold child_of. induction rest as [|r rest IH]; simpl.
  - reflexivity.
  - now rewrite IH, (contact_in_same_id c d _ Hid).
Qed.

Lemma merge_row_same_data (db : Store) (m : Z) (rest : list Contact) (c : Contact) :
  same_data c (merge_row db m rest c) /\ updatedAt (merge_row db m rest c) = updatedAt c.
Proof.
  unfold merge_row. revert c. induction rest as [|r rest IH]; intros c; simpl.
  - split; [apply same_data_refl | reflexivity].
  - destruct (IH (demote_row db m c r)) as [H1 H2].
    destruct (demote_row_same_data db m c r) as [K1 K2].
    split; [eapply same_data_trans; eassumption | congruence].
Qed.

Lemma merge_row_id (db : Store) (m : Z) (rest : list Contact) (c : Contact) :
  id (merge_row db m rest c) = id c.
Proof. apply merge_row_same_data. Qed.

Lemma merge_row_linkPrecedence (db : Store) (m : Z) (rest : list Contact) (c : Contact) :
  linkPrecedence (merge_row db m rest c)
  = if contact_in c rest then secondary else linkPrecedence c.
Proof.
  unfold merge_row. revert c. induction rest as [|r rest IH]; intros c; simpl.
  - reflexivity.
  - rewrite IH, demote_row_linkPrecedence.
    assert (Hid : id (demote_row db m c r) = id c) by apply demote_row_same_data.
    rewrite (contact_in_same_id _ c rest Hid).
    unfold has_id. rewrite (Z.eqb_sym (id r) (id c)).
    destruct (id c =? id r); simpl; now destruct (contact_in c rest).
Qed.

Lemma merge_row_linkedId (db : Store) (m : Z) (rest : list Contact) (c : Contact) :
  linkedId (merge_row db m rest c)
  = if contact_in c rest || child_of db rest c then Some m else linkedId c.
Proof.
  unfold merge_row. revert c. induction rest as [|r rest IH]; intros c; simpl.
  - reflexivity.
  - rewrite IH, demote_row_linkedId.
    assert (Hid : id (demote_row db m c r) = id c) by apply demote_row_same_data.
    rewrite (contact_in_same_id _ c rest Hid).
    assert (Hch : child_of db rest (demote_row db m c r) = child_of db rest c).
    { now apply child_of_same_id. }
    rewrite Hch.
    unfold has_id. rewrite (Z.eqb_sym (id r) (id c)).
    destruct (id c =? id r); simpl;
      destruct (contact_in c rest); simpl;
      destruct (contact_in c (secondary_contacts db r)); simpl;
      destruct (child_of db rest c); reflexivity.
Qed.

(** Two rows with the same fields are the same row. *)
Lemma Contact_ext (a b : Contact) :
  same_data a b -> updatedAt b = updatedAt a ->
  linkedId b = linkedId a -> linkPrecedence b = linkPrecedence a -> a = b.
Proof.
  destruct a, b. unfold same_data. simpl.
  intros (-> & -> & -> & ->) -> -> ->. reflexivity.
Qed.

Lemma merge_row_untouched (db : Store) (m : Z) (rest : list Contact) (c : Contact) :
  contact_in c rest = false -> child_of db rest c = false ->
  merge_row db m rest c = c.
Proof.
  intros H1 H2. symmetry. apply Contact_ext.
  - apply merge_row_same_data.
  - apply merge_row_same_data.
  - now rewrite merge_row_linkedId, H1, H2.
  - now rewrite merge_row_linkPrecedence, H1.
Qed.

(** ** Commit *)

Lemma flush_map (now : Z) (db : Store) (f : Contact -> Contact) :
  flush now db (map f db) = map (fun c => flush_row now c (f c)) db.
Proof.
  unfold flush. induction db as [|c db IH]; simpl; [reflexivity|].
  now rewrite IH.
Qed.

Lemma flush_row_same (now : Z) (c : Contact) : flush_row now c c = c.
Proof. unfold flush_row. now rewrite Contact_eqb_refl. Qed.

Lemma flush_row_same_data (now : Z) (old new : Contact) :
  same_data new (flush_row now old new).
Proof.
  unfold flush_row. destruct (Contact_eqb old new) eqn:E.
  - apply Contact_eqb_eq in E. subst. apply same_data_refl.
  - repeat split.
Qed.

Lemma flush_row_linkedId (now : Z) (old new : Contact) :
  linkedId (flush_row now old new) = linkedId new.
Proof.
  unfold flush_row. destruct (Contact_eqb old new) eqn:E; [|reflexivity].
  apply Contact_eqb_eq in E. now subst.
Qed.

Lemma flush_row_linkPrecedence (now : Z) (old new : Contact) :
  linkPrecedence (flush_row now old new) = linkPrecedence new.
Proof.
  unfold flush_row. destruct (Contact_eqb old new) eqn:E; [|reflexivity].
  apply Contact_eqb_eq in E. now subst.
Qed.

Lemma commit_row_same_data (now : Z) (db : Store) (m : Z) (rest : list Contact)
      (c : Contact) :
  same_data c (commit_row now db m rest c).
Proof.
  unfold commit_row. eapply same_data_trans.
  - apply merge_row_same_data.
  - apply flush_row_same_data.
Qed.

Lemma commit_row_id (now : Z) (db : Store) (m : Z) (rest : list Contact) (c : Contact) :
  id (commit_row now db m rest c) = id c.
Proof. apply commit_row_same_data. Qed.

Lemma commit_row_linkPrecedence (now : Z) (db : Store) (m : Z) (rest : list Contact)
      (c : Contact) :
  linkPrecedence (commit_row now db m rest c)
  = if contact_in c rest then secondary else linkPrecedence c.
Proof.
  unfold commit_row. now rewrite flush_row_linkPrecedence, merge_row_linkPrecedence.
Qed.

Lemma commit_row_linkedId (now : Z) (db : Store) (m : Z) (rest : list Contact)
      (c : Contact) :
  linkedId (commit_row now db m rest c)
  = if contact_in c rest || child_of db rest c then Some m else linkedId c.
Proof.
  unfold commit_row. now rewrite flush_row_linkedId, merge_row_linkedId.
Qed.

Lemma commit_row_untouched (now : Z) (db : Store) (m : Z) (rest : list Contact)
      (c : Contact) :
  contact_in c rest = false -> child_of db rest c = false ->
  commit_row now db m rest c = c.
Proof.
  intros H1 H2. unfold commit_row.
  rewrite (merge_row_untouched db m rest c H1 H2). apply flush_row_same.
Qed.

(** ** The three outcomes of [identify_contact] *)

Lemma is_truthy_false (o : option string) : is_truthy o = false -> truthy o = None.
Proof. unfold is_truthy. now destruct (truthy o). Qed.

Lemma truthy_Some (o : option string) (s : string) :
  truthy o = Some s -> o = Some s /\ s <> EmptyString.
Proof.
  destruct o as [t|]; simpl; [|discriminate].
  destruct (String.eqb t EmptyString) eqn:E; [discriminate|].
  intros H. injection H as ->. split; [reflexivity|].
  now apply String.eqb_neq.
Qed.

Lemma matching_contacts_unsupplied (req : IdentifyRequest) (db : Store) :
  is_truthy (req_email req) = false -> is_truthy (req_phoneNumber req) = false ->
  matching_contacts req db = [].
Proof.
  intros He Hp. unfold matching_contacts.
  now rewrite (is_truthy_false _ He), (is_truthy_false _ Hp).
Qed.

Lemma primary_contacts_unmatched (req : IdentifyRequest) (db : Store) :
  unique_matching_contacts req db = [] -> primary_contacts req db = [].
Proof.
  intros H. unfold primary_contacts, candidate_primaries. now rewrite H.
Qed.

Lemma primary_contacts_supplied (req : IdentifyRequest) (db : Store) :
  primary_contacts req db <> [] ->
  unique_matching_contacts req db <> [] /\ supplied req.
Proof.
  intros Hne.
  assert (Hu : unique_matching_contacts req db <> []).
  { intros H. now apply primary_contacts_unmatched in H. }
  split; [assumption|].
  unfold supplied.
  destruct (is_truthy (req_email req)) eqn:He; [now left|].
  destruct (is_truthy (req_phoneNumber req)) eqn:Hp; [now right|].
  exfalso. apply Hu. unfold unique_matching_contacts.
  now rewrite matching_contacts_unsupplied.
Qed.

Section Outcomes.

Context {PS : PySet}.

Lemma identify_contact_unsupplied (now : Z) (req : IdentifyRequest) (db : Store) :
  is_truthy (req_email req) = false -> is_truthy (req_phoneNumber req) = false ->
  identify_contact now req db = (inl (HTTPException HTTP_400_BAD_REQUEST), db).
Proof.
  intros He Hp. unfold identify_contact. now rewrite He, Hp.
Qed.

Lemma supplied_guard (req : IdentifyRequest) :
  supplied req ->
  negb (is_truthy (req_email req)) && negb (is_truthy (req_phoneNumber req)) = false.
Proof.
  intros [H|H]; rewrite H; simpl; [reflexivity | apply andb_false_r].
Qed.

Lemma identify_contact_unmatched (now : Z) (req : IdentifyRequest) (db : Store) :
  supplied req -> unique_matching_contacts req db = [] ->
  identify_contact now req db
  = (inr (mkResponse (next_id db)
            (match truthy (req_email req) with Some e => [e] | None => [] end)
            (match truthy (req_phoneNumber req) with Some p => [p] | None => [] end)
            []),
     db ++ [mkContact (next_id db) (req_phoneNumber req) (req_email req)
                      None primary now now]).
Proof.
  intros Hs Hu. unfold identify_contact.
  rewrite (supplied_guard req Hs), Hu. reflexivity.
Qed.

Lemma identify_contact_matched (now : Z) (req : IdentifyRequest) (db : Store)
      (main : Contact) (rest : list Contact) :
  primary_contacts req db = main :: rest ->
  identify_contact now req db
  = (inr (build_response (committed now req db main rest) main),
     committed now req db main rest).
Proof.
  intros Hp.
  assert (Hne : primary_contacts req db <> []) by (rewrite Hp; discriminate).
  destruct (primary_contacts_supplied req db Hne) as [Hu Hs].
  unfold identify_contact. rewrite (supplied_guard req Hs).
  destruct (unique_matching_contacts req db) as [|u us]; [congruence|].
  rewrite Hp.
  assert (Hdb : (if new_information req
                      (all_related_contacts db main (merge db main (main :: rest)))
                 then flush now db (fst (merge db main (main :: rest)))
                        ++ [insert_row now db (req_email req) (req_phoneNumber req)
                                       (Some (id main)) secondary]
                 else flush now db (fst (merge db main (main :: rest))))
                = committed now req db main rest).
  { unfold committed. rewrite merge_fst, flush_map.
    destruct (new_information req _); [reflexivity | now rewrite app_nil_r]. }
  cbv zeta. rewrite Hdb. reflexivity.
Qed.

Lemma identify_contact_index_error (now : Z) (req : IdentifyRequest) (db : Store) :
  supplied req -> unique_matching_contacts req db <> [] ->
  primary_contacts req db = [] ->
  identify_contact now req db = (inl IndexError, db).
Proof.
  intros Hs Hu Hp. unfold identify_contact. rewrite (supplied_guard req Hs).
  destruct (unique_matching_contacts req db); [congruence|].
  now rewrite Hp.
Qed.

End Outcomes.

(** ** Sorting by [createdAt] *)

Lemma insert_by_createdAt_perm (c : Contact) (l : list Contact) :
  Permutation (insert_by_createdAt c l) (c :: l).
Proof.
  induction l as [|d l IH]; simpl.
  - apply Permutation_refl.
  - destruct (createdAt c <=? createdAt d).
    + apply Permutation_refl.
    + eapply perm_trans; [apply perm_skip, IH | apply perm_swap].
Qed.

Lemma sorted_by_createdAt_perm (l : list Contact) :
  Permutation (sorted_by_createdAt l) l.
Proof.
  induction l as [|c l IH]; simpl.
  - constructor.
  - eapply perm_trans; [apply insert_by_createdAt_perm | now apply perm_skip].
Qed.

Lemma sorted_by_createdAt_In (l : list Contact) (c : Contact) :
  In c (sorted_by_createdAt l) <-> In c l.
Proof.
  split; apply Permutation_in;
    [| apply Permutation_sym]; apply sorted_by_createdAt_perm.
Qed.

Lemma sorted_by_createdAt_nil (l : list Contact) :
  sorted_by_createdAt l = [] -> l = [].
Proof.
  intros H. apply Permutation_nil.
  rewrite <- H. apply sorted_by_createdAt_perm.
Qed.

(** The head of a sorted list is the first element of the input that has
    the least [createdAt]: no earlier element is as old, and no element at
    all is older. *)
Lemma sorted_by_createdAt_head (l : list Contact) (m : Contact) (rest : list Contact) :
  sorted_by_createdAt l = m :: rest ->
  (forall p, In p l -> createdAt m <= createdAt p) /\
  exists l1 l2, l = l1 ++ m :: l2 /\ forall q, In q l1 -> createdAt m < createdAt q.
Proof.
  revert m rest. induction l as [|c l IH]; intros m rest; simpl.
  - discriminate.
  - destruct (sorted_by_createdAt l) as [|d ds] eqn:Es; simpl.
    + apply sorted_by_createdAt_nil in Es. subst l.
      intros H. injection H as <- <-. split.
      * intros p [->|[]]. lia.
      * exists [], []. split; [reflexivity | intros q []].
    + destruct (IH d ds eq_refl) as [Hmin (l1 & l2 & Hl & Hlt)].
      destruct (createdAt c <=? createdAt d) eqn:E.
      * apply Z.leb_le in E. intros H. injection H as <- <-. split.
        -- intros p [->|Hp]; [lia|]. specialize (Hmin p Hp). lia.
        -- exists [], l. split; [reflexivity | intros q []].
      * apply Z.leb_gt in E. intros H. injection H as <- <-. split.
        -- intros p [->|Hp]; [lia | now apply Hmin].
        -- exists (c :: l1), l2. split; [now rewrite Hl|].
           intros q [->|Hq]; [assumption | now apply Hlt].
Qed.

(** ** [dict.fromkeys] *)

Lemma dict_fromkeys_from_In (l seen : list Contact) (c : Contact) :
  In c (dict_fromkeys_from seen l) -> In c l /\ contact_in c seen = false.
Proof.
  revert seen. induction l as [|d l IH]; intros seen; simpl.
  - intros [].
  - destruct (contact_in d seen) eqn:E.
    + intros H. apply IH in H. tauto.
    + intros [->|H]; [tauto|]. apply IH in H. destruct H as [H1 H2].
      split; [tauto|]. apply contact_in_false. intros x Hx.
      apply (proj1 (contact_in_false _ _) H2). now right.
Qed.

Lemma dict_fromkeys_from_complete (l seen : list Contact) (c : Contact) :
  In c l -> contact_in c seen = false ->
  exists d, In d (dict_fromkeys_from seen l) /\ id d = id c.
Proof.
  revert seen. induction l as [|x l IH]; intros seen; simpl.
  - intros [].
  - intros Hin Hseen. destruct (contact_in x seen) eqn:E.
    + destruct Hin as [->|Hin]; [congruence | now apply IH].
    + destruct Hin as [->|Hin]; [exists c; simpl; tauto|].
      destruct (Z.eq_dec (id x) (id c)) as [Heq|Hne].
      * exists x. simpl. tauto.
      * destruct (IH (x :: seen) Hin) as [d [Hd Hid]].
        -- apply contact_in_false. intros y [<-|Hy]; [assumption|].
           now apply (proj1 (contact_in_false _ _) Hseen).
        -- exists d. simpl. tauto.
Qed.

Lemma dict_fromkeys_from_NoDup (l seen : list Contact) :
  NoDup (map id (dict_fromkeys_from seen l)).
Proof.
  revert seen. induction l as [|x l IH]; intros seen; simpl.
  - constructor.
  - destruct (contact_in x seen); [apply IH|].
    simpl. constructor; [|apply IH].
    rewrite in_map_iff. intros [d [Hid Hd]].
    apply dict_fromkeys_from_In in Hd. destruct Hd as [_ Hd].
    apply (proj1 (contact_in_false _ _) Hd x); [now left | congruence].
Qed.

Lemma dict_fromkeys_In (l : list Contact) (c : Contact) :
  In c (dict_fromkeys l) -> In c l.
Proof. intros H. now apply dict_fromkeys_from_In in H. Qed.

Lemma dict_fromkeys_complete (l : list Contact) (c : Contact) :
  In c l -> exists d, In d (dict_fromkeys l) /\ id d = id c.
Proof. intros H. now apply dict_fromkeys_from_complete. Qed.

Lemma dict_fromkeys_NoDup (l : list Contact) : NoDup (map id (dict_fromkeys l)).
Proof. apply dict_fromkeys_from_NoDup. Qed.

(** ** Rows of a table with unique ids *)

Lemma distinct_int_NoDup (l : list Z) : distinct_int l = true <-> NoDup l.
Proof.
  induction l as [|i l IH]; simpl.
  - split; [constructor | reflexivity].
  - rewrite andb_true_iff, negb_true_iff, IH. split.
    + intros [Hn Hd]. constructor; [|assumption].
      intros Hin. assert (existsb (Z.eqb i) l = true); [|congruence].
      apply existsb_exists. exists i. split; [assumption | apply Z.eqb_refl].
    + intros H. inversion H as [|? ? Hn Hd]; subst. split; [|assumption].
      destruct (existsb (Z.eqb i) l) eqn:E; [|reflexivity].
      apply existsb_exists in E. destruct E as [j [Hj Hij]].
      apply Z.eqb_eq in Hij. now subst.
Qed.

Lemma stored_Some (db : Store) (i : Z) (c : Contact) :
  stored db i = Some c -> In c db /\ id c = i.
Proof.
  unfold stored. intros H. apply find_some in H.
  destruct H as [H1 H2]. now apply has_id_true in H2.
Qed.

Lemma same_id_eq (db : Store) (a b : Contact) :
  NoDup (map id db) -> In a db -> In b db -> id a = id b -> a = b.
Proof.
  induction db as [|c db IH]; simpl; [intros _ []|].
  intros Hnd Ha Hb Hid. inversion Hnd as [|? ? Hn Hd]; subst.
  destruct Ha as [->|Ha], Hb as [->|Hb].
  - reflexivity.
  - exfalso. apply Hn. rewrite Hid. now apply in_map.
  - exfalso. apply Hn. rewrite <- Hid. now apply in_map.
  - now apply IH.
Qed.

Lemma stored_In (db : Store) (c : Contact) :
  NoDup (map id db) -> In c db -> stored db (id c) = Some c.
Proof.
  intros Hnd Hin. unfold stored.
  destruct (find (has_id (id c)) db) as [d|] eqn:E.
  - apply find_some in E. destruct E as [Hd Hid].
    apply has_id_true in Hid. f_equal. now apply (same_id_eq db).
  - exfalso. apply (find_none _ _ E) in Hin.
    unfold has_id in Hin. now rewrite Z.eqb_refl in Hin.
Qed.

Lemma wf_store_spec (db : Store) :
  wf_store db <->
  NoDup (map id db) /\ forall c, In c db -> link_ok db c = true.
Proof.
  unfold wf_store, wf_storeb.
  now rewrite andb_true_iff, distinct_int_NoDup, forallb_forall.
Qed.

Lemma link_ok_primary (db : Store) (c : Contact) :
  link_ok db c = true -> linkPrecedence c = primary -> linkedId c = None.
Proof.
  unfold link_ok. intros H Hp. rewrite Hp in H.
  now destruct (linkedId c).
Qed.

Lemma link_ok_secondary (db : Store) (c : Contact) :
  link_ok db c = true -> linkPrecedence c = secondary ->
  exists p, linkedId c = Some (id p) /\ stored db (id p) = Some p /\
            In p db /\ linkPrecedence p = primary.
Proof.
  unfold link_ok. intros H Hs. rewrite Hs in H.
  destruct (linkedId c) as [i|]; [|discriminate].
  destruct (stored db i) as [p|] eqn:E; [|discriminate].
  destruct (stored_Some db i p E) as [Hin Hid]. subst i.
  exists p. repeat split; try assumption. now apply is_primary_true.
Qed.

(** ** The matcher and the group resolver *)

Lemma sql_eq_str_true (col : option string) (v : string) :
  sql_eq_str col v = true <-> col = Some v.
Proof.
  destruct col as [s|]; simpl; [|split; discriminate].
  rewrite String.eqb_eq. split; congruence.
Qed.

Lemma sql_eq_int_true (col : option Z) (v : Z) :
  sql_eq_int col v = true <-> col = Some v.
Proof.
  destruct col as [i|]; simpl; [|split; discriminate].
  rewrite Z.eqb_eq. split; congruence.
Qed.

Lemma secondary_contacts_In (db : Store) (c d : Contact) :
  In d (secondary_contacts db c) <-> In d db /\ linkedId d = Some (id c).
Proof.
  unfold secondary_contacts. now rewrite filter_In, sql_eq_int_true.
Qed.

Lemma matching_contacts_spec (req : IdentifyRequest) (db : Store) (c : Contact) :
  In c (matching_contacts req db) <->
  In c db /\
  ((exists e, truthy (req_email req) = Some e /\ email c = Some e) \/
   (exists p, truthy (req_phoneNumber req) = Some p /\ phoneNumber c = Some p)).
Proof.
  unfold matching_contacts, query_email, query_phoneNumber.
  rewrite in_app_iff. split.
  - intros [H|H].
    + destruct (truthy (req_email req)) as [e|]; [|destruct H].
      apply filter_In in H. destruct H as [H1 H2].
      apply sql_eq_str_true in H2. eauto.
    + destruct (truthy (req_phoneNumber req)) as [p|]; [|destruct H].
      apply filter_In in H. destruct H as [H1 H2].
      apply sql_eq_str_true in H2. eauto.
  - intros [Hin [[e [He Hc]]|[p [Hp Hc]]]].
    + left. rewrite He. apply filter_In. split; [assumption|].
      now apply sql_eq_str_true.
    + right. rewrite Hp. apply filter_In. split; [assumption|].
      now apply sql_eq_str_true.
Qed.

Lemma unique_matching_contacts_In (req : IdentifyRequest) (db : Store) (c : Contact) :
  In c (unique_matching_contacts req db) -> In c (matching_contacts req db).
Proof. apply dict_fromkeys_In. Qed.

Lemma unique_matching_contacts_db (req : IdentifyRequest) (db : Store) (c : Contact) :
  In c (unique_matching_contacts req db) -> In c db.
Proof.
  intros H. apply unique_matching_contacts_In in H.
  now apply matching_contacts_spec in H.
Qed.

Lemma no_match_unique (req : IdentifyRequest) (db : Store) :
  no_match req db -> unique_matching_contacts req db = [].
Proof.
  intros Hn. unfold unique_matching_contacts.
  assert (Hm : matching_contacts req db = []).
  { destruct (matching_contacts req db) as [|c l] eqn:E; [reflexivity|].
    assert (Hin : In c (matching_contacts req db)) by (rewrite E; now left).
    apply matching_contacts_spec in Hin.
    destruct Hin as [Hdb [[e [He Hc]]|[p [Hp Hc]]]];
      destruct (Hn c Hdb) as [H1 H2]; exfalso;
      [exact (H1 e He Hc) | exact (H2 p Hp Hc)]. }
  now rewrite Hm.
Qed.

Lemma primary_contact_Some (db : Store) (s p : Contact) :
  primary_contact db s = Some p -> In p db /\ linkedId s = Some (id p).
Proof.
  unfold primary_contact. destruct (linkedId s) as [i|]; [|discriminate].
  intros H. apply (stored_Some db i p) in H. destruct H as [H1 H2].
  split; congruence.
Qed.

Lemma trace_back_incl (db : Store) (secs acc : list Contact) (p : Contact) :
  In p acc -> In p (fold_left (trace_back db) secs acc).
Proof.
  revert acc. induction secs as [|s secs IH]; intros acc H; simpl.
  - assumption.
  - apply IH. unfold trace_back.
    destruct (primary_contact db s) as [q|]; [|assumption].
    destruct (contact_in q acc); [assumption|].
    apply in_or_app. now left.
Qed.

Lemma trace_back_In (db : Store) (secs acc : list Contact) (p : Contact) :
  In p (fold_left (trace_back db) secs acc) ->
  In p acc \/ exists s, In s secs /\ primary_contact db s = Some p.
Proof.
  revert acc. induction secs as [|s secs IH]; intros acc; simpl.
  - tauto.
  - intros H. apply IH in H. destruct H as [H|[s' [Hs' Hp]]].
    + unfold trace_back in H.
      destruct (primary_contact db s) as [q|] eqn:E; [|tauto].
      destruct (contact_in q acc); [tauto|].
      apply in_app_or in H. destruct H as [H|[<-|[]]]; [tauto|].
      right. exists s. tauto.
    + right. exists s'. tauto.
Qed.

Lemma trace_back_complete (db : Store) (secs acc : list Contact) (s p : Contact) :
  NoDup (map id db) -> (forall x, In x acc -> In x db) ->
  In s secs -> primary_contact db s = Some p ->
  In p (fold_left (trace_back db) secs acc).
Proof.
  intros Hnd. revert acc. induction secs as [|s' secs IH]; intros acc Hacc; simpl.
  - intros [].
  - intros [->|Hs] Hp.
    + apply trace_back_incl. unfold trace_back. rewrite Hp.
      destruct (contact_in p acc) eqn:E.
      * apply contact_in_true in E. destruct E as [d [Hd Hid]].
        assert (d = p); [|now subst].
        apply (same_id_eq db); auto.
        now apply primary_contact_Some in Hp.
      * apply in_or_app. right. now left.
    + apply IH; [|assumption|assumption].
      intros x Hx. unfold trace_back in Hx.
      destruct (primary_contact db s') as [q|] eqn:E; [|now apply Hacc].
      destruct (contact_in q acc); [now apply Hacc|].
      apply in_app_or in Hx. destruct Hx as [Hx|[<-|[]]]; [now apply Hacc|].
      now apply primary_contact_Some in E.
Qed.

Lemma candidate_primaries_In (req : IdentifyRequest) (db : Store) (p : Contact) :
  In p (candidate_primaries req db) ->
  exists c, In c (unique_matching_contacts req db) /\ owner db c = Some p.
Proof.
  unfold candidate_primaries. intros H. apply trace_back_In in H.
  destruct H as [H|[s [Hs Hp]]].
  - apply sorted_by_createdAt_In, filter_In in H. destruct H as [H1 H2].
    exists p. split; [assumption|]. unfold owner.
    apply is_primary_true in H2. now rewrite H2.
  - apply filter_In in Hs. destruct Hs as [H1 H2].
    exists s. split; [assumption|]. unfold owner.
    apply is_secondary_true in H2. now rewrite H2.
Qed.

Lemma candidate_primaries_complete (req : IdentifyRequest) (db : Store) (c p : Contact) :
  NoDup (map id db) ->
  In c (unique_matching_contacts req db) -> owner db c = Some p ->
  In p (candidate_primaries req db).
Proof.
  intros Hnd Hc Ho. unfold candidate_primaries, owner in *.
  destruct (linkPrecedence c) eqn:E.
  - injection Ho as <-. apply trace_back_incl, sorted_by_createdAt_In, filter_In.
    split; [assumption | now apply is_primary_true].
  - apply (trace_back_complete db _ _ c p Hnd).
    + intros x Hx. apply sorted_by_createdAt_In, filter_In in Hx.
      destruct Hx as [Hx _]. now apply unique_matching_contacts_db in Hx.
    + apply filter_In. split; [assumption | now apply is_secondary_true].
    + assumption.
Qed.

Lemma owner_db (db : Store) (c p : Contact) :
  In c db -> owner db c = Some p -> In p db.
Proof.
  unfold owner. destruct (linkPrecedence c).
  - intros H E. now injection E as <-.
  - intros _ E. now apply primary_contact_Some in E.
Qed.

Lemma primary_contacts_In (req : IdentifyRequest) (db : Store) (p : Contact) :
  In p (primary_contacts req db) ->
  exists c, In c (unique_matching_contacts req db) /\ owner db c = Some p.
Proof.
  unfold primary_contacts. intros H.
  apply sorted_by_createdAt_In, dict_fromkeys_In in H.
  now apply candidate_primaries_In.
Qed.

Lemma primary_contacts_db (req : IdentifyRequest) (db : Store) (p : Contact) :
  In p (primary_contacts req db) -> In p db.
Proof.
  intros H. apply primary_contacts_In in H. destruct H as [c [Hc Ho]].
  apply (owner_db db c); [|assumption].
  now apply unique_matching_contacts_db in Hc.
Qed.

Lemma primary_contacts_complete (req : IdentifyRequest) (db : Store) (c p : Contact) :
  NoDup (map id db) ->
  In c (unique_matching_contacts req db) -> owner db c = Some p ->
  In p (primary_contacts req db).
Proof.
  intros Hnd Hc Ho.
  pose proof (candidate_primaries_complete req db c p Hnd Hc Ho) as Hin.
  destruct (dict_fromkeys_complete _ _ Hin) as [d [Hd Hid]].
  unfold primary_contacts. apply sorted_by_createdAt_In.
  assert (d = p); [|now subst].
  apply (same_id_eq db); auto.
  - apply dict_fromkeys_In, candidate_primaries_In in Hd.
    destruct Hd as [c' [Hc' Ho']]. apply (owner_db db c'); [|assumption].
    now apply unique_matching_contacts_db in Hc'.
  - apply (owner_db db c); [|assumption].
    now apply unique_matching_contacts_db in Hc.
Qed.

Lemma primary_contacts_NoDup (req : IdentifyRequest) (db : Store) :
  NoDup (map id (primary_contacts req db)).
Proof.
  unfold primary_contacts.
  eapply Permutation_NoDup; [|apply dict_fromkeys_NoDup].
  apply Permutation_map, Permutation_sym, sorted_by_createdAt_perm.
Qed.

Lemma owner_exists (db : Store) (c : Contact) :
  wf_store db -> In c db ->
  exists p, owner db c = Some p /\ In p db /\ linkPrecedence p = primary.
Proof.
  intros Hwf Hc. apply wf_store_spec in Hwf. destruct Hwf as [Hnd Hok].
  unfold owner. destruct (linkPrecedence c) eqn:E.
  - exists c. tauto.
  - destruct (link_ok_secondary db c (Hok c Hc) E) as [p (H1 & H2 & H3 & H4)].
    exists p. unfold primary_contact. rewrite H1. tauto.
Qed.

Lemma primary_contacts_primary (req : IdentifyRequest) (db : Store) (p : Contact) :
  wf_store db -> In p (primary_contacts req db) -> linkPrecedence p = primary.
Proof.
  intros Hwf H. apply primary_contacts_In in H. destruct H as [c [Hc Ho]].
  apply unique_matching_contacts_db in Hc.
  destruct (owner_exists db c Hwf Hc) as [q (H1 & H2 & H3)]. congruence.
Qed.

Lemma primary_contacts_nonempty (req : IdentifyRequest) (db : Store) :
  wf_store db -> unique_matching_contacts req db <> [] ->
  primary_contacts req db <> [].
Proof.
  intros Hwf Hu. destruct (unique_matching_contacts req db) as [|c l] eqn:E;
    [congruence|].
  assert (Hc : In c (unique_matching_contacts req db)) by (rewrite E; now left).
  destruct (owner_exists db c Hwf (unique_matching_contacts_db _ _ _ Hc))
    as [p (H1 & H2 & H3)].
  apply wf_store_spec in Hwf.
  pose proof (primary_contacts_complete req db c p (proj1 Hwf) Hc H1) as Hin.
  intros Hnil. rewrite Hnil in Hin. destruct Hin.
Qed.

(** ** Preservation of the data-model invariants *)

Lemma stored_app_l (db l : Store) (i : Z) (p : Contact) :
  stored db i = Some p -> stored (db ++ l) i = Some p.
Proof.
  unfold stored. induction db as [|c db IH]; simpl; [discriminate|].
  destruct (has_id i c); [trivial | exact IH].
Qed.

Lemma stored_map (f : Contact -> Contact) (db : Store) (i : Z) :
  (forall c, id (f c) = id c) ->
  stored (map f db) i = option_map f (stored db i).
Proof.
  intros Hf. unfold stored. induction db as [|c db IH]; simpl; [reflexivity|].
  unfold has_id at 1 3. rewrite Hf.
  destruct (id c =? i); [reflexivity | exact IH].
Qed.

Lemma map_id_map (f : Contact -> Contact) (db : Store) :
  (forall c, id (f c) = id c) -> map id (map f db) = map id db.
Proof. intros Hf. rewrite map_map. apply map_ext. exact Hf. Qed.

Lemma next_id_fresh (db : Store) : ~ In (next_id db) (map id db).
Proof.
  assert (H : forall i, In i (map id db) -> i < next_id db).
  { unfold next_id. induction db as [|c db IH]; [intros i []|].
    intros i Hi. cbn [map fold_right] in *.
    destruct Hi as [<-|Hi]; [lia|]. specialize (IH i Hi). lia. }
  intros Hin. apply H in Hin. lia.
Qed.

Lemma link_ok_app (db l : Store) (c : Contact) :
  link_ok db c = true -> link_ok (db ++ l) c = true.
Proof.
  unfold link_ok. destruct (linkPrecedence c), (linkedId c) as [i|]; trivial.
  destruct (stored db i) as [p|] eqn:E; [|discriminate].
  now rewrite (stored_app_l db l i p E).
Qed.

Lemma wf_append (db : Store) (new : Contact) :
  wf_store db -> ~ In (id new) (map id db) -> link_ok db new = true ->
  wf_store (db ++ [new]).
Proof.
  rewrite !wf_store_spec. intros [Hnd Hok] Hfresh Hnew. split.
  - rewrite map_app. simpl.
    apply (Permutation_NoDup (l := id new :: map id db)).
    + apply Permutation_cons_append.
    + now constructor.
  - intros c Hc. apply in_app_or in Hc. apply link_ok_app.
    destruct Hc as [Hc|[<-|[]]]; [now apply Hok | assumption].
Qed.

Lemma child_of_true (db : Store) (rest : list Contact) (c : Contact) :
  child_of db rest c = true <->
  exists r d, In r rest /\ In d db /\ linkedId d = Some (id r) /\ id d = id c.
Proof.
  unfold child_of. rewrite existsb_exists. split.
  - intros [r [Hr H]]. apply contact_in_true in H. destruct H as [d [Hd Hid]].
    apply secondary_contacts_In in Hd. exists r, d. tauto.
  - intros (r & d & Hr & Hd & Hl & Hid). exists r. split; [assumption|].
    apply contact_in_true. exists d. split; [|assumption].
    now apply secondary_contacts_In.
Qed.

(** With unique ids, the rows re-linked by the loop are exactly the rows
    linked to a demoted contact. *)
Lemma child_of_linked (db : Store) (rest : list Contact) (c : Contact) :
  NoDup (map id db) -> In c db ->
  (child_of db rest c = true <-> exists r, In r rest /\ linkedId c = Some (id r)).
Proof.
  intros Hnd Hc. rewrite child_of_true. split.
  - intros (r & d & Hr & Hd & Hl & Hid).
    assert (d = c) by now apply (same_id_eq db). subst d. eauto.
  - intros (r & Hr & Hl). exists r, c. tauto.
Qed.

Lemma wf_commit (now : Z) (db : Store) (main : Contact) (rest : list Contact) :
  wf_store db -> In main db -> linkPrecedence main = primary ->
  contact_in main rest = false -> (forall r, In r rest -> In r db) ->
  wf_store (map (commit_row now db (id main) rest) db).
Proof.
  intros Hwf Hmain Hprim Hnot Hrest.
  pose proof (proj1 (wf_store_spec db) Hwf) as [Hnd Hok].
  set (f := commit_row now db (id main) rest).
  assert (Hfid : forall c, id (f c) = id c) by (intros c; apply commit_row_id).
  assert (Hfmain : stored (map f db) (id main) = Some (f main)).
  { rewrite (stored_map f db _ Hfid), (stored_In db main Hnd Hmain). reflexivity. }
  assert (Hpmain : is_primary (f main) = true).
  { apply is_primary_true. unfold f.
    now rewrite commit_row_linkPrecedence, Hnot. }
  assert (Hlinked : forall c, linkPrecedence (f c) = secondary ->
                              linkedId (f c) = Some (id main) ->
                              link_ok (map f db) (f c) = true).
  { intros c H1 H2. unfold link_ok. now rewrite H1, H2, Hfmain. }
  apply wf_store_spec. split; [now rewrite (map_id_map f db Hfid)|].
  intros c' Hc'. apply in_map_iff in Hc'. destruct Hc' as [c [<- Hc]].
  pose proof (Hok c Hc) as Hokc.
  destruct (contact_in c rest) eqn:Ein.
  - apply Hlinked; unfold f.
    + now rewrite commit_row_linkPrecedence, Ein.
    + now rewrite commit_row_linkedId, Ein.
  - destruct (child_of db rest c) eqn:Ech.
    + apply Hlinked; unfold f.
      * rewrite commit_row_linkPrecedence, Ein.
        destruct (linkPrecedence c) eqn:Ep; [|reflexivity].
        apply (child_of_linked db rest c Hnd Hc) in Ech.
        destruct Ech as (r & _ & Hl).
        rewrite (link_ok_primary db c Hokc Ep) in Hl. discriminate.
      * now rewrite commit_row_linkedId, Ein, Ech.
    + unfold f at 2. rewrite (commit_row_untouched now db _ rest c Ein Ech).
      unfold link_ok. destruct (linkPrecedence c) eqn:Ep.
      * now rewrite (link_ok_primary db c Hokc Ep).
      * destruct (link_ok_secondary db c Hokc Ep) as [p (H1 & H2 & H3 & H4)].
        rewrite H1, (stored_map f db _ Hfid), H2. simpl.
        apply is_primary_true. unfold f. rewrite commit_row_linkPrecedence.
        destruct (contact_in p rest) eqn:Epr; [|assumption].
        exfalso. apply contact_in_true in Epr. destruct Epr as [r [Hr Hid]].
        assert (r = p) by (apply (same_id_eq db); auto). subst r.
        assert (child_of db rest c = true); [|congruence].
        apply (child_of_linked db rest c Hnd Hc). eauto.
Qed.

Lemma NoDup_cons_contact_in (main : Contact) (rest : list Contact) :
  NoDup (map id (main :: rest)) -> contact_in main rest = false.
Proof.
  simpl. intros H. inversion H as [|? ? Hn _]; subst.
  apply contact_in_false. intros d Hd Hid. apply Hn. rewrite <- Hid.
  now apply in_map.
Qed.

(** What the resolver's result looks like on a well-formed table. *)
Lemma resolved_facts (req : IdentifyRequest) (db : Store)
      (main : Contact) (rest : list Contact) :
  wf_store db -> primary_contacts req db = main :: rest ->
  In main db /\ linkPrecedence main = primary /\
  contact_in main rest = false /\
  (forall r, In r rest -> In r db /\ linkPrecedence r = primary).
Proof.
  intros Hwf Hp.
  assert (Hall : forall p, In p (main :: rest) ->
                           In p db /\ linkPrecedence p = primary).
  { intros p Hin. rewrite <- Hp in Hin. split.
    - now apply primary_contacts_db in Hin.
    - now apply (primary_contacts_primary req db). }
  destruct (Hall main (or_introl eq_refl)) as [H1 H2].
  repeat split; try assumption.
  - apply NoDup_cons_contact_in. rewrite <- Hp. apply primary_contacts_NoDup.
  - apply Hall. now right.
  - apply Hall. now right.
Qed.

Lemma wf_committed (now : Z) (req : IdentifyRequest) (db : Store)
      (main : Contact) (rest : list Contact) :
  wf_store db -> primary_contacts req db = main :: rest ->
  wf_store (committed now req db main rest).
Proof.
  intros Hwf Hp.
  destruct (resolved_facts req db main rest Hwf Hp) as (H1 & H2 & H3 & H4).
  assert (Hw : wf_store (map (commit_row now db (id main) rest) db)).
  { apply wf_commit; try assumption. intros r Hr. now apply H4. }
  unfold committed. destruct (new_information req _).
  - apply wf_append; [assumption | |].
    + rewrite map_id_map by (intros c; apply commit_row_id). apply next_id_fresh.
    + unfold link_ok, insert_row. simpl.
      rewrite stored_map by (intros c; apply commit_row_id).
      apply wf_store_spec in Hwf. rewrite (stored_In db main (proj1 Hwf) H1).
      simpl. apply is_primary_true. now rewrite commit_row_linkPrecedence, H3.
  - now rewrite app_nil_r.
Qed.

Section Cases.

Context {PS : PySet}.

(** Every call ends in one of three ways: an exception with the table as
    it was ([IndexError] only when rows matched and none resolved), a new
    primary, or the commit of a resolved request. *)
Lemma identify_contact_cases (now : Z) (req : IdentifyRequest) (db : Store) :
  (exists e, identify_contact now req db = (inl e, db) /\
             (e = IndexError ->
              unique_matching_contacts req db <> [] /\
              primary_contacts req db = [])) \/
  (supplied req /\ unique_matching_contacts req db = [] /\
   identify_contact now req db
   = (inr (mkResponse (next_id db)
             (match truthy (req_email req) with Some e => [e] | None => [] end)
             (match truthy (req_phoneNumber req) with Some p => [p] | None => [] end)
             []),
      db ++ [mkContact (next_id db) (req_phoneNumber req) (req_email req)
                       None primary now now])) \/
  (exists main rest,
      primary_contacts req db = main :: rest /\
      identify_contact now req db
      = (inr (build_response (committed now req db main rest) main),
         committed now req db main rest)).
Proof.
  destruct (primary_contacts req db) as [|main rest] eqn:Ep.
  - assert (Hsup : supplied req ->
                   (exists e, identify_contact now req db = (inl e, db) /\
                              (e = IndexError ->
                               unique_matching_contacts req db <> [] /\
                               [] = @nil Contact)) \/
                   (supplied req /\ unique_matching_contacts req db = [] /\
                    identify_contact now req db
                    = (inr (mkResponse (next_id db)
                              (match truthy (req_email req) with
                               | Some e => [e] | None => [] end)
                              (match truthy (req_phoneNumber req) with
                               | Some p => [p] | None => [] end)
                              []),
                       db ++ [mkContact (next_id db) (req_phoneNumber req)
                                        (req_email req) None primary now now]))).
    { intros Hs. destruct (unique_matching_contacts req db) as [|u us] eqn:Eu.
      - right. repeat split; try assumption.
        now apply identify_contact_unmatched.
      - left. exists IndexError. split; [|intros _; split; [discriminate | reflexivity]].
        apply identify_contact_index_error;
          [assumption | rewrite Eu; discriminate | assumption]. }
    destruct (is_truthy (req_email req)) eqn:He.
    + destruct (Hsup (or_introl He)) as [H|H]; [left | right; left]; exact H.
    + destruct (is_truthy (req_phoneNumber req)) eqn:Hph.
      * destruct (Hsup (or_intror Hph)) as [H|H]; [left | right; left]; exact H.
      * left. eexists. split; [now apply identify_contact_unsupplied|].
        discriminate.
  - right. right. exists main, rest. split; [reflexivity|].
    now apply identify_contact_matched.
Qed.

Lemma wf_identify_contact (now : Z) (req : IdentifyRequest) (db : Store) :
  wf_store db -> wf_store (snd (identify_contact now req db)).
Proof.
  intros Hwf.
  destruct (identify_contact_cases now req db)
    as [[e [H Hidx]]|[(Hs & Hu & H)|(main & rest & Hp & H)]]; rewrite H; simpl.
  - assumption.
  - apply wf_append; [assumption | apply next_id_fresh | reflexivity].
  - now apply wf_committed.
Qed.

Lemma wf_run (reqs : list (Z * IdentifyRequest)) (db : Store) :
  wf_store db -> wf_store (run reqs db).
Proof.
  unfold run. revert db. induction reqs as [|nr reqs IH]; intros db Hwf; simpl.
  - assumption.
  - apply IH. now apply wf_identify_contact.
Qed.

(** Every table reached from the empty one satisfies the invariants. *)
Lemma wf_reachable (reqs : list (Z * IdentifyRequest)) : wf_store (run reqs []).
Proof. apply wf_run. reflexivity. Qed.

End Cases.

(** ** The new-information check *)

Lemma truthy_values_In (f : Contact -> option string) (l : list Contact) (s : string) :
  In s (truthy_values f l) <-> exists c, In c l /\ truthy (f c) = Some s.
Proof.
  unfold truthy_values. rewrite in_flat_map. split.
  - intros [c [Hc Hs]]. exists c. split; [assumption|].
    destruct (truthy (f c)) as [t|]; [|destruct Hs].
    destruct Hs as [->|[]]. reflexivity.
  - intros [c [Hc Hs]]. exists c. split; [assumption|].
    rewrite Hs. now left.
Qed.

Lemma truthy_of_Some (s : string) : s <> EmptyString -> truthy (Some s) = Some s.
Proof.
  intros H. simpl. apply String.eqb_neq in H. now rewrite H.
Qed.

Lemma is_new_spec (v : option string) (f : Contact -> option string)
      (group : list Contact) :
  is_new v (truthy_values f group) = true <->
  exists s, truthy v = Some s /\ forall c, In c group -> f c <> Some s.
Proof.
  unfold is_new. destruct (truthy v) as [s|] eqn:E.
  - rewrite negb_true_iff. split.
    + intros H. exists s. split; [reflexivity|]. intros c Hc Hf.
      assert (existsb (String.eqb s) (truthy_values f group) = true);
        [|congruence].
      apply existsb_eqb_In, truthy_values_In. exists c. split; [assumption|].
      rewrite Hf. apply truthy_of_Some. now apply truthy_Some in E.
    + intros [t [Ht H]]. injection Ht as <-.
      destruct (existsb (String.eqb s) (truthy_values f group)) eqn:Ex;
        [|reflexivity].
      apply existsb_eqb_In, truthy_values_In in Ex. destruct Ex as [c [Hc Hs]].
      apply truthy_Some in Hs. now apply H in Hc.
  - split; [discriminate | intros [s [Hs _]]; discriminate].
Qed.

Lemma new_information_spec (req : IdentifyRequest) (group : list Contact) :
  new_information req group = true <-> supplies_new_value req group.
Proof.
  unfold new_information, supplies_new_value.
  now rewrite orb_true_iff, !is_new_spec.
Qed.

Lemma commit_row_nil (now : Z) (db : Store) (m : Z) (c : Contact) :
  commit_row now db m [] c = c.
Proof. apply commit_row_untouched; reflexivity. Qed.

Lemma committed_single (now : Z) (req : IdentifyRequest) (db : Store) (main : Contact) :
  committed now req db main []
  = db ++ (if new_information req (group_of db main)
           then [mkContact (next_id db) (req_phoneNumber req) (req_email req)
                           (Some (id main)) secondary now now]
           else []).
Proof.
  unfold committed. f_equal.
  - transitivity (map (fun c : Contact => c) db); [|apply map_id].
    apply map_ext. intros c. apply commit_row_nil.
  - unfold all_related_contacts, merge. simpl. now rewrite app_nil_r.
Qed.

(** * The claims *)

Section Claims.

Context {PS : PySet}.

(** C7: when neither the email nor the phone number is supplied (each is
    absent or empty), the call fails with the client error 400 and the
    table is left exactly as it was. *)
Theorem unsupplied_request_is_rejected (now : Z) (req : IdentifyRequest) (db : Store) :
  is_truthy (req_email req) = false ->
  is_truthy (req_phoneNumber req) = false ->
  identify_contact now req db = (inl (HTTPException HTTP_400_BAD_REQUEST), db).
Proof.
  intros He Hp. now apply identify_contact_unsupplied.
Qed.

(** C4: for a request with at least one field supplied that no row
    matches, exactly one row is added to the table; it is primary, has no
    [linkedId], carries the given email and phone number and a fresh id,
    and the response names that id, lists the supplied email and the
    supplied phone number and has no secondary ids. *)
Theorem unmatched_request_creates_primary (now : Z) (req : IdentifyRequest) (db : Store) :
  supplied req -> no_match req db ->
  exists new_contact,
    identify_contact now req db
    = (inr (mkResponse (id new_contact)
              (match truthy (req_email req) with Some e => [e] | None => [] end)
              (match truthy (req_phoneNumber req) with Some p => [p] | None => [] end)
              []),
       db ++ [new_contact]) /\
    linkPrecedence new_contact = primary /\
    linkedId new_contact = None /\
    email new_contact = req_email req /\
    phoneNumber new_contact = req_phoneNumber req /\
    ~ In (id new_contact) (map id db).
Proof.
  intros Hs Hn.
  exists (mkContact (next_id db) (req_phoneNumber req) (req_email req)
                    None primary now now).
  split.
  - apply identify_contact_unmatched; [assumption | now apply no_match_unique].
  - simpl. repeat split. apply next_id_fresh.
Qed.

(** C3: when the matched rows resolve to exactly one group, with primary
    [main]: if the request supplies an email that no member of the group
    has, or a phone number that no member has, exactly one row is added,
    a secondary carrying both given fields and linked to [main]; otherwise
    the table is not changed at all. *)
Theorem single_group_attach_or_noop (now : Z) (req : IdentifyRequest) (db : Store)
        (main : Contact) :
  primary_contacts req db = [main] ->
  (supplies_new_value req (group_of db main) ->
   snd (identify_contact now req db)
   = db ++ [mkContact (next_id db) (req_phoneNumber req) (req_email req)
                      (Some (id main)) secondary now now]) /\
  (~ supplies_new_value req (group_of db main) ->
   snd (identify_contact now req db) = db).
Proof.
  intros Hp. rewrite (identify_contact_matched now req db main [] Hp).
  simpl. rewrite committed_single. split; intros H.
  - apply new_information_spec in H. now rewrite H.
  - destruct (new_information req (group_of db main)) eqn:E.
    + apply new_information_spec in E. contradiction.
    + apply app_nil_r.
Qed.

End Claims.

(** ** A request replayed on the table it created *)

Lemma unique_matching_contacts_empty (req : IdentifyRequest) :
  unique_matching_contacts req [] = [].
Proof.
  unfold unique_matching_contacts, matching_contacts.
  now destruct (truthy (req_email req)), (truthy (req_phoneNumber req)).
Qed.

Lemma primary_contacts_self (req : IdentifyRequest) (i t : Z) :
  supplied req ->
  primary_contacts req
    [mkContact i (req_phoneNumber req) (req_email req) None primary t t]
  = [mkContact i (req_phoneNumber req) (req_email req) None primary t t].
Proof.
  destruct req as [oe op]. unfold supplied. simpl. intros Hs.
  unfold primary_contacts, candidate_primaries, unique_matching_contacts,
    matching_contacts, query_email, query_phoneNumber.
  simpl.
  destruct (truthy oe) as [e|] eqn:He; destruct (truthy op) as [p|] eqn:Hp.
  - apply truthy_Some in He. apply truthy_Some in Hp.
    destruct He as [-> _], Hp as [-> _]. simpl.
    rewrite !String.eqb_refl. simpl.
    unfold dict_fromkeys, contact_in, has_id. simpl. now rewrite Z.eqb_refl.
  - apply truthy_Some in He. destruct He as [-> _]. simpl.
    rewrite String.eqb_refl. reflexivity.
  - apply truthy_Some in Hp. destruct Hp as [-> _]. simpl.
    rewrite String.eqb_refl. reflexivity.
  - exfalso. unfold is_truthy in Hs. rewrite He, Hp in Hs.
    destruct Hs; discriminate.
Qed.

Lemma replay_supplies_nothing_new (req : IdentifyRequest) (i t : Z) (l : list Contact) :
  ~ supplies_new_value req
      (mkContact i (req_phoneNumber req) (req_email req) None primary t t :: l).
Proof.
  intros [[e [He H]]|[p [Hp H]]].
  - apply truthy_Some in He. apply (H _ (or_introl eq_refl)). simpl. tauto.
  - apply truthy_Some in Hp. apply (H _ (or_introl eq_refl)). simpl. tauto.
Qed.

Section MoreClaims.

Context {PS : PySet}.

(** C8: for every request with at least one field supplied, the first
    call on the empty table creates exactly one row, a primary, and a
    second call with the same request changes nothing: the table still
    holds that one row, unmodified. *)
Theorem repeated_request_is_idempotent (now1 now2 : Z) (req : IdentifyRequest) :
  supplied req ->
  exists p,
    snd (identify_contact now1 req []) = [p] /\
    linkPrecedence p = primary /\ linkedId p = None /\
    snd (identify_contact now2 req [p]) = [p].
Proof.
  intros Hs.
  exists (mkContact 1 (req_phoneNumber req) (req_email req) None primary now1 now1).
  split; [|split; [reflexivity | split; [reflexivity|]]].
  - rewrite (identify_contact_unmatched now1 req [] Hs
               (unique_matching_contacts_empty req)).
    reflexivity.
  - rewrite (identify_contact_matched now2 req _ _ []
               (primary_contacts_self req 1 now1 Hs)).
    simpl. rewrite committed_single.
    destruct (new_information req _) eqn:E; [|reflexivity].
    apply new_information_spec in E.
    now apply replay_supplies_nothing_new in E.
Qed.

(** C6: on a table that satisfies the data-model invariants, the resolver
    returns exactly the owning primaries of the matched rows, where the
    owner of a primary row is the row itself and the owner of a secondary
    row is the row its [linkedId] points to; every matched row has an
    owner; the resolved list is empty if and only if nothing matched; and
    the selection of [primary_contacts[0]] never raises [IndexError]. *)
Theorem resolver_yields_owners (now : Z) (req : IdentifyRequest) (db : Store) :
  wf_store db ->
  (forall p, In p (primary_contacts req db) <->
             exists c, In c (unique_matching_contacts req db) /\ owner db c = Some p) /\
  (forall c, In c (unique_matching_contacts req db) ->
             exists p, owner db c = Some p /\ linkPrecedence p = primary /\
                       In p (primary_contacts req db)) /\
  (primary_contacts req db = [] <-> unique_matching_contacts req db = []) /\
  fst (identify_contact now req db) <> inl IndexError.
Proof.
  intros Hwf. pose proof (proj1 (wf_store_spec db) Hwf) as [Hnd _].
  split; [|split; [|split]].
  - intros p. split.
    + apply primary_contacts_In.
    + intros [c [Hc Ho]]. now apply (primary_contacts_complete req db c).
  - intros c Hc.
    destruct (owner_exists db c Hwf (unique_matching_contacts_db _ _ _ Hc))
      as [p (H1 & H2 & H3)].
    exists p. repeat split; try assumption.
    now apply (primary_contacts_complete req db c).
  - split.
    + intros Hp. destruct (unique_matching_contacts req db) eqn:E; [reflexivity|].
      exfalso. apply (primary_contacts_nonempty req db Hwf); [|assumption].
      rewrite E. discriminate.
    + apply primary_contacts_unmatched.
  - destruct (identify_contact_cases now req db)
      as [[e [H Hidx]]|[(Hs & Hu & H)|(main & rest & Hp & H)]];
      rewrite H; simpl; try discriminate.
    intros He. injection He as ->. destruct (Hidx eq_refl) as [Hu Hp].
    now apply (primary_contacts_nonempty req db Hwf Hu).
Qed.

End MoreClaims.

(** ** Rows of the committed table *)

Lemma stored_committed (now : Z) (req : IdentifyRequest) (db : Store)
      (main : Contact) (rest : list Contact) (i : Z) (c : Contact) :
  stored db i = Some c ->
  stored (committed now req db main rest) i
  = Some (commit_row now db (id main) rest c).
Proof.
  intros H. unfold committed. apply stored_app_l.
  rewrite stored_map by (intros x; apply commit_row_id).
  now rewrite H.
Qed.

Lemma Forall2_map_r (R : Contact -> Contact -> Prop) (f : Contact -> Contact)
      (l : list Contact) :
  (forall c, In c l -> R c (f c)) -> Forall2 R l (map f l).
Proof.
  induction l as [|c l IH]; intros H; simpl; constructor.
  - apply H. now left.
  - apply IH. intros x Hx. apply H. now right.
Qed.

Lemma Forall2_diag (R : Contact -> Contact -> Prop) (l : list Contact) :
  (forall c, R c c) -> Forall2 R l l.
Proof. intros H. induction l; constructor; auto. Qed.

Lemma not_In_contact_in (db : Store) (rest : list Contact) (c : Contact) :
  NoDup (map id db) -> In c db -> (forall r, In r rest -> In r db) ->
  ~ In c rest -> contact_in c rest = false.
Proof.
  intros Hnd Hc Hrest Hn. apply contact_in_false. intros d Hd Hid.
  apply Hn. assert (d = c); [|now subst].
  apply (same_id_eq db); auto.
Qed.

Lemma not_linked_child_of (db : Store) (rest : list Contact) (c : Contact) :
  NoDup (map id db) -> In c db ->
  (forall r, In r rest -> linkedId c <> Some (id r)) ->
  child_of db rest c = false.
Proof.
  intros Hnd Hc Hn. destruct (child_of db rest c) eqn:E; [|reflexivity].
  apply (child_of_linked db rest c Hnd Hc) in E. destruct E as (r & Hr & Hl).
  now apply Hn in Hr.
Qed.

Lemma frame_refl (absorbed : list Contact) (c : Contact) : frame absorbed c c.
Proof. unfold frame. tauto. Qed.

Section StoreClaims.

Context {PS : PySet}.

(** C10: on a table that satisfies the data-model invariants, a request
    only appends rows and rewrites existing ones in place; every existing
    row keeps its id, createdAt, email and phone number; a row that is not
    an absorbed primary keeps its precedence; and a row that is neither an
    absorbed primary nor linked to one is not changed at all (so only
    precedence, linkedId and updatedAt of absorbed primaries and linkedId
    and updatedAt of their secondaries can change). *)
Theorem merge_changes_only_links (now : Z) (req : IdentifyRequest) (db : Store) :
  wf_store db ->
  exists updated added,
    snd (identify_contact now req db) = updated ++ added /\
    Forall2 (frame (tl (primary_contacts req db))) db updated.
Proof.
  intros Hwf. pose proof (proj1 (wf_store_spec db) Hwf) as [Hnd _].
  destruct (identify_contact_cases now req db)
    as [[e [H Hidx]]|[(Hs & Hu & H)|(main & rest & Hp & H)]]; rewrite H; simpl.
  - exists db, []. split; [now rewrite app_nil_r|].
    apply Forall2_diag, frame_refl.
  - eexists db, _. split; [reflexivity|].
    apply Forall2_diag, frame_refl.
  - rewrite Hp. simpl tl. unfold committed. eexists _, _. split; [reflexivity|].
    destruct (resolved_facts req db main rest Hwf Hp) as (H1 & H2 & H3 & H4).
    assert (Hrest : forall r, In r rest -> In r db) by (intros r Hr; now apply H4).
    apply Forall2_map_r. intros c Hc.
    destruct (commit_row_same_data now db (id main) rest c) as (K1 & K2 & K3 & K4).
    unfold frame. repeat split; try assumption.
    + intros Hn. rewrite commit_row_linkPrecedence.
      now rewrite (not_In_contact_in db rest c Hnd Hc Hrest Hn).
    + intros Hn Hl. apply commit_row_untouched.
      * now apply (not_In_contact_in db).
      * now apply not_linked_child_of.
Qed.

(** C2: on a table that satisfies the data-model invariants, the table a
    request leaves behind satisfies them again; in particular every
    secondary row of it is linked to a row of it that is primary; and
    when a merge absorbs the primary [r], every row that was linked to
    [r] is afterwards linked directly to the surviving primary. *)
Theorem links_stay_one_hop (now : Z) (req : IdentifyRequest) (db : Store) :
  wf_store db ->
  wf_store (snd (identify_contact now req db)) /\
  (forall c, In c (snd (identify_contact now req db)) ->
             linkPrecedence c = secondary ->
             exists p, In p (snd (identify_contact now req db)) /\
                       linkedId c = Some (id p) /\ linkPrecedence p = primary) /\
  (forall main rest r c,
      primary_contacts req db = main :: rest ->
      In r rest -> In c db -> linkedId c = Some (id r) ->
      exists c', stored (snd (identify_contact now req db)) (id c) = Some c' /\
                 linkPrecedence c' = secondary /\
                 linkedId c' = Some (id main)).
Proof.
  intros Hwf. pose proof (wf_identify_contact now req db Hwf) as Hwf'.
  split; [assumption|]. split.
  - intros c Hc Hs. apply wf_store_spec in Hwf'. destruct Hwf' as [_ Hok].
    destruct (link_ok_secondary _ c (Hok c Hc) Hs) as [p (H1 & H2 & H3 & H4)].
    exists p. tauto.
  - intros main rest r c Hp Hr Hc Hl.
    pose proof (proj1 (wf_store_spec db) Hwf) as [Hnd Hok].
    rewrite (identify_contact_matched now req db main rest Hp). simpl.
    exists (commit_row now db (id main) rest c).
    split; [apply stored_committed; now apply stored_In|].
    assert (Hch : child_of db rest c = true).
    { apply (child_of_linked db rest c Hnd Hc). eauto. }
    split.
    + rewrite commit_row_linkPrecedence.
      destruct (contact_in c rest); [reflexivity|].
      destruct (linkPrecedence c) eqn:E; [|reflexivity].
      rewrite (link_ok_primary db c (Hok c Hc) E) in Hl. discriminate.
    + rewrite commit_row_linkedId, Hch. now rewrite orb_true_r.
Qed.

End StoreClaims.

(** ** The assembled view *)

Lemma no_links_to_fresh (db : Store) (c : Contact) :
  wf_store db -> In c db -> linkedId c <> Some (next_id db).
Proof.
  intros Hwf Hc Hl. apply wf_store_spec in Hwf. destruct Hwf as [_ Hok].
  specialize (Hok c Hc). unfold link_ok in Hok. rewrite Hl in Hok.
  destruct (linkPrecedence c); [discriminate|].
  destruct (stored db (next_id db)) as [p|] eqn:E; [|discriminate].
  apply stored_Some in E. destruct E as [Hin Hid].
  apply (next_id_fresh db). rewrite <- Hid. now apply in_map.
Qed.

Lemma stored_app_new (db : Store) (new : Contact) :
  ~ In (id new) (map id db) -> stored (db ++ [new]) (id new) = Some new.
Proof.
  intros Hf. unfold stored. induction db as [|c db IH]; simpl.
  - unfold has_id. now rewrite Z.eqb_refl.
  - simpl in Hf. destruct (has_id (id new) c) eqn:E.
    + apply has_id_true in E. tauto.
    + apply IH. tauto.
Qed.

Section View.

Context {PS : PySet}.

Lemma ordered_values_spec (own : option string) (vals : list string) :
  exists others,
    ordered_values own vals = own_value own ++ others /\
    NoDup (ordered_values own vals) /\
    (forall s, truthy own = Some s -> hd_error (ordered_values own vals) = Some s) /\
    (forall s, In s others <-> own <> Some s /\ In s vals).
Proof.
  set (others := filter (fun e => negb (option_eqb String.eqb (Some e) own))
                        (set_iter vals)).
  assert (Hin : forall s, In s others <-> own <> Some s /\ In s vals).
  { intros s. unfold others. rewrite filter_In, set_iter_In, negb_true_iff.
    split.
    - intros [H1 H2]. split; [|assumption]. intros ->. simpl in H2.
      now rewrite String.eqb_refl in H2.
    - intros [H1 H2]. split; [assumption|].
      destruct (option_eqb String.eqb (Some s) own) eqn:E; [|reflexivity].
      apply (option_eqb_eq String.eqb String.eqb_eq) in E. congruence. }
  assert (Hnd : NoDup others) by (apply NoDup_filter, set_iter_NoDup).
  exists others. unfold ordered_values, own_value. fold others.
  split; [reflexivity|]. split; [|split; [|exact Hin]].
  - destruct (truthy own) as [t|] eqn:E; simpl; [|assumption].
    constructor; [|assumption]. intros Ht. apply Hin in Ht.
    apply truthy_Some in E. destruct Ht as [Ht _]. now apply Ht.
  - intros s Hs. now rewrite Hs.
Qed.

Lemma primary_first_ordered_values (f : Contact -> option string) (main : Contact)
      (group : list Contact) :
  primary_first f main group (ordered_values (f main) (truthy_values f group)).
Proof.
  destruct (ordered_values_spec (f main) (truthy_values f group))
    as (others & H1 & H2 & H3 & H4).
  exists others. split; [assumption|]. split; [assumption|].
  split; [assumption|].
  intros s. rewrite H4, truthy_values_In. reflexivity.
Qed.

Lemma build_response_spec (db : Store) (main0 : Contact) :
  primaryContatctId (build_response db main0) = id (refresh db main0) /\
  primary_first email (refresh db main0) (group_of db (refresh db main0))
                (emails (build_response db main0)) /\
  primary_first phoneNumber (refresh db main0) (group_of db (refresh db main0))
                (phoneNumbers (build_response db main0)).
Proof.
  split; [reflexivity|]. split.
  - exact (primary_first_ordered_values email (refresh db main0)
             (group_of db (refresh db main0))).
  - exact (primary_first_ordered_values phoneNumber (refresh db main0)
             (group_of db (refresh db main0))).
Qed.

Lemma primary_first_alone (f : Contact -> option string) (db : Store) (new : Contact) :
  wf_store db -> id new = next_id db -> linkedId new = None ->
  primary_first f new (group_of (db ++ [new]) new) (own_value (f new)).
Proof.
  intros Hwf Hid Hl. exists []. rewrite app_nil_r.
  split; [reflexivity|]. split; [|split].
  - unfold own_value. destruct (truthy (f new)); repeat constructor. intros [].
  - intros s Hs. unfold own_value. now rewrite Hs.
  - intros s. split; [intros []|]. intros [Hne [c [Hc Hs]]].
    apply truthy_Some in Hs. destruct Hc as [<-|Hc]; [tauto|].
    apply secondary_contacts_In in Hc. destruct Hc as [Hc Hlink].
    rewrite Hid in Hlink. apply in_app_or in Hc. destruct Hc as [Hc|[<-|[]]].
    + now apply (no_links_to_fresh db c).
    + congruence.
Qed.

(** C5 (as the code has it): on a table that satisfies the data-model
    invariants, a successful response names the target primary, a primary
    row of the new table: the head of the resolver's list (the surviving
    primary) when rows matched, the row just created when none did.  Its
    emails list is that primary's own email (when present) followed by
    every other email of the primary's group exactly once, with no
    duplicates, in the order in which the set that collected them is
    iterated; in particular the list starts with the primary's own email
    whenever it has one.  The same holds for the phone numbers. *)
Theorem response_lists_primary_values_first (now : Z) (req : IdentifyRequest)
        (db : Store) (resp : ContactResponseData) (db' : Store) :
  wf_store db -> identify_contact now req db = (inr resp, db') ->
  exists main,
    stored db' (primaryContatctId resp) = Some main /\
    linkPrecedence main = primary /\
    (forall target rest, primary_contacts req db = target :: rest -> main = target) /\
    (primary_contacts req db = [] -> db' = db ++ [main]) /\
    primary_first email main (group_of db' main) (emails resp) /\
    primary_first phoneNumber main (group_of db' main) (phoneNumbers resp).
Proof.
  intros Hwf Hres.
  destruct (identify_contact_cases now req db)
    as [[e [H Hidx]]|[(Hs & Hu & H)|(main0 & rest & Hp & H)]];
    rewrite H in Hres; [discriminate | |]; injection Hres as <- <-.
  - set (new := mkContact (next_id db) (req_phoneNumber req) (req_email req)
                          None primary now now).
    exists new. simpl.
    split; [|split; [reflexivity|split; [|split; [reflexivity|split]]]].
    + apply (stored_app_new db new), next_id_fresh.
    + intros target rest' Hp. rewrite (primary_contacts_unmatched req db Hu) in Hp.
      discriminate.
    + apply (primary_first_alone email db new Hwf); reflexivity.
    + apply (primary_first_alone phoneNumber db new Hwf); reflexivity.
  - pose proof (proj1 (wf_store_spec db) Hwf) as [Hnd Hok].
    destruct (resolved_facts req db main0 rest Hwf Hp) as (H1 & H2 & H3 & H4).
    set (db1 := committed now req db main0 rest).
    assert (Hkeep : commit_row now db (id main0) rest main0 = main0).
    { apply commit_row_untouched; [assumption|].
      apply not_linked_child_of; try assumption.
      intros r _. now rewrite (link_ok_primary db main0 (Hok main0 H1) H2). }
    assert (Hst : stored db1 (id main0) = Some main0).
    { unfold db1.
      rewrite (stored_committed now req db main0 rest _ main0
                 (stored_In db main0 Hnd H1)).
      now rewrite Hkeep. }
    assert (Href : refresh db1 main0 = main0).
    { unfold refresh. unfold stored in Hst. now rewrite Hst. }
    destruct (build_response_spec db1 main0) as (B1 & B2 & B3).
    rewrite Href in B1, B2, B3.
    exists main0.
    split; [now rewrite B1|].
    split; [assumption|].
    split; [intros target rest' Hp'; congruence|].
    split; [intros Hp'; congruence|].
    split; assumption.
Qed.

End View.

(** ** Rows along a sequence of requests *)

Lemma later_version_refl (c : Contact) : later_version c c.
Proof. split; [apply same_data_refl | trivial]. Qed.

Lemma later_version_trans (a b c : Contact) :
  later_version a b -> later_version b c -> later_version a c.
Proof.
  intros [H1 H2] [K1 K2]. split; [eapply same_data_trans; eassumption | auto].
Qed.

Section Histories.

Context {PS : PySet}.

Lemma step_keeps_rows (now : Z) (req : IdentifyRequest) (db : Store) (i : Z) (c : Contact) :
  stored db i = Some c ->
  exists c', stored (snd (identify_contact now req db)) i = Some c' /\
             later_version c c'.
Proof.
  intros Hc.
  destruct (identify_contact_cases now req db)
    as [[e [H Hidx]]|[(Hs & Hu & H)|(main & rest & Hp & H)]]; rewrite H; simpl.
  - exists c. split; [assumption | apply later_version_refl].
  - exists c. split; [now apply stored_app_l | apply later_version_refl].
  - exists (commit_row now db (id main) rest c).
    split; [now apply stored_committed|]. split.
    + apply commit_row_same_data.
    + intros Hsec. rewrite commit_row_linkPrecedence, Hsec.
      now destruct (contact_in c rest).
Qed.

Lemma run_keeps_rows (reqs : list (Z * IdentifyRequest)) (db : Store) (i : Z) (c : Contact) :
  stored db i = Some c ->
  exists c', stored (run reqs db) i = Some c' /\ later_version c c'.
Proof.
  unfold run. revert db c. induction reqs as [|nr reqs IH]; intros db c Hc; simpl.
  - exists c. split; [assumption | apply later_version_refl].
  - destruct (step_keeps_rows (fst nr) (snd nr) db i c Hc) as [c1 [H1 L1]].
    destruct (IH _ c1 H1) as [c' [H' L']].
    exists c'. split; [assumption | eapply later_version_trans; eassumption].
Qed.

Lemma history_cons (reqs : list (Z * IdentifyRequest)) (db : Store) :
  exists h, history reqs db = db :: h.
Proof. destruct reqs; simpl; eauto. Qed.

Lemma mutations_step {A : Type} (eqb : A -> A -> bool) (f : Contact -> A)
      (i : Z) (s s' : Store) (h : list Store) :
  mutations eqb f i (s :: s' :: h)
  = (match stored s i, stored s' i with
     | Some c, Some c' => if eqb (f c) (f c') then 0 else 1
     | _, _ => 0
     end + mutations eqb f i (s' :: h))%nat.
Proof. reflexivity. Qed.

Lemma precedence_mutations_bound (reqs : list (Z * IdentifyRequest)) (db : Store) (i : Z) :
  (mutations LinkPrecedence_eqb linkPrecedence i (history reqs db) <= 1)%nat /\
  (forall c, stored db i = Some c -> linkPrecedence c = secondary ->
             mutations LinkPrecedence_eqb linkPrecedence i (history reqs db) = 0%nat).
Proof.
  revert db. induction reqs as [|nr reqs IH]; intros db.
  - simpl. split; [lia | reflexivity].
  - cbn [history].
    set (db1 := snd (identify_contact (fst nr) (snd nr) db)).
    destruct (IH db1) as [IH1 IH2].
    destruct (history_cons reqs db1) as [h Hh]. rewrite Hh in *.
    rewrite mutations_step.
    destruct (stored db i) as [c|] eqn:Ec; [|split; [exact IH1 | discriminate]].
    destruct (step_keeps_rows (fst nr) (snd nr) db i c Ec) as [c1 [H1 [_ L1]]].
    fold db1 in H1. rewrite H1.
    destruct (linkPrecedence c) eqn:Epc.
    + split.
      * destruct (linkPrecedence c1) eqn:Epc1; cbn [LinkPrecedence_eqb]; [lia|].
        rewrite (IH2 c1 H1 Epc1). lia.
      * intros c0 Hc0 Hs. injection Hc0 as <-. congruence.
    + rewrite (L1 eq_refl). cbn [LinkPrecedence_eqb].
      rewrite (IH2 c1 H1 (L1 eq_refl)). split; [lia | reflexivity].
Qed.

Lemma step_changes_absorbed_only (now : Z) (req : IdentifyRequest) (db : Store)
      (i : Z) (c c' : Contact) :
  stored db i = Some c ->
  stored (snd (identify_contact now req db)) i = Some c' ->
  linkPrecedence c' <> linkPrecedence c ->
  exists r, In r (tl (primary_contacts req db)) /\ id r = id c.
Proof.
  intros Hc Hc' Hne.
  destruct (identify_contact_cases now req db)
    as [[e [H Hidx]]|[(Hs & Hu & H)|(main & rest & Hp & H)]];
    rewrite H in Hc'; simpl in Hc'.
  - congruence.
  - rewrite (stored_app_l db _ i c Hc) in Hc'. congruence.
  - rewrite (stored_committed now req db main rest i c Hc) in Hc'.
    injection Hc' as <-. rewrite commit_row_linkPrecedence in Hne.
    destruct (contact_in c rest) eqn:E; [|congruence].
    apply contact_in_true in E. rewrite Hp. exact E.
Qed.

(** C9 (as the code has it): along every sequence of requests from a
    table that satisfies the data-model invariants, the precedence of a
    row changes at most once; no row is ever deleted, and a row keeps its
    id, createdAt, email and phone number; a secondary row stays secondary
    and keeps a linkedId; a row that is still primary at the end was
    primary, never linked, all along; and a request changes the
    precedence of a row only if the row is one of the primaries it
    absorbs.  (The linkedId of a secondary row is not fixed: each merge
    that absorbs its primary re-points it.) *)
Theorem precedence_changes_at_most_once (reqs : list (Z * IdentifyRequest))
        (db : Store) (i : Z) :
  wf_store db ->
  (mutations LinkPrecedence_eqb linkPrecedence i (history reqs db) <= 1)%nat /\
  (forall c, stored db i = Some c ->
     exists c', stored (run reqs db) i = Some c' /\
                id c' = id c /\ createdAt c' = createdAt c /\
                email c' = email c /\ phoneNumber c' = phoneNumber c /\
                (linkPrecedence c = secondary ->
                 linkPrecedence c' = secondary /\ linkedId c' <> None) /\
                (linkPrecedence c' = primary ->
                 linkPrecedence c = primary /\ linkedId c = None /\
                 linkedId c' = None)) /\
  (forall now req c c',
     stored db i = Some c ->
     stored (snd (identify_contact now req db)) i = Some c' ->
     linkPrecedence c' <> linkPrecedence c ->
     linkPrecedence c = primary /\ linkPrecedence c' = secondary /\
     exists r, In r (tl (primary_contacts req db)) /\ id r = id c).
Proof.
  intros Hwf. split; [apply precedence_mutations_bound|]. split.
  - intros c Hc.
    destruct (run_keeps_rows reqs db i c Hc) as [c' [Hc' [(K1 & K2 & K3 & K4) L]]].
    exists c'. repeat split; try assumption.
    + now apply L.
    + intros Hnone.
      pose proof (wf_run reqs db Hwf) as Hwf'. apply wf_store_spec in Hwf'.
      apply stored_Some in Hc'. destruct Hc' as [Hin _].
      destruct (link_ok_secondary _ c' (proj2 Hwf' c' Hin) (L H))
        as [p (E & _)]. congruence.
    + destruct (linkPrecedence c) eqn:E; [reflexivity|].
      rewrite (L eq_refl) in H. discriminate.
    + apply wf_store_spec in Hwf. apply stored_Some in Hc. destruct Hc as [Hin _].
      apply (link_ok_primary db c (proj2 Hwf c Hin)).
      destruct (linkPrecedence c) eqn:E; [reflexivity|].
      rewrite (L eq_refl) in H. discriminate.
    + pose proof (wf_run reqs db Hwf) as Hwf'. apply wf_store_spec in Hwf'.
      apply stored_Some in Hc'. destruct Hc' as [Hin _].
      now apply (link_ok_primary _ c' (proj2 Hwf' c' Hin)).
  - intros now req c c' Hc Hc' Hne.
    destruct (step_keeps_rows now req db i c Hc) as [c1 [H1 [_ L1]]].
    assert (c1 = c') by congruence. subst c1.
    assert (Hp : linkPrecedence c = primary).
    { destruct (linkPrecedence c) eqn:E; [reflexivity|].
      rewrite (L1 eq_refl) in Hne. congruence. }
    split; [exact Hp|]. split.
    + rewrite Hp in Hne. now destruct (linkPrecedence c').
    + now apply (step_changes_absorbed_only now req db i c c').
Qed.

End Histories.

(** * Further properties of the endpoint

    ** Sorted lists *)

Lemma insert_int_perm (i : Z) (l : list Z) :
  Permutation (insert_int i l) (i :: l).
Proof.
  induction l as [|j l IH]; simpl.
  - apply Permutation_refl.
  - destruct (i <=? j).
    + apply Permutation_refl.
    + eapply perm_trans; [apply perm_skip, IH | apply perm_swap].
Qed.

Lemma sorted_int_perm (l : list Z) : Permutation (sorted_int l) l.
Proof.
  induction l as [|i l IH]; simpl.
  - constructor.
  - eapply perm_trans; [apply insert_int_perm | now apply perm_skip].
Qed.

Lemma insert_int_sorted (i : Z) (l : list Z) :
  StronglySorted Z.le l -> StronglySorted Z.le (insert_int i l).
Proof.
  induction l as [|j l IH]; intros Hs; simpl.
  - repeat constructor.
  - inversion Hs as [|? ? Hl Hj]; subst.
    destruct (i <=? j) eqn:E.
    + apply Z.leb_le in E. constructor; [assumption|].
      constructor; [assumption|].
      eapply Forall_impl; [|exact Hj]. intros k Hk. simpl in Hk. lia.
    + apply Z.leb_gt in E. constructor; [now apply IH|].
      apply Forall_forall. intros k Hk.
      apply (Permutation_in _ (insert_int_perm i l)) in Hk.
      destruct Hk as [<-|Hk]; [lia|].
      now apply (proj1 (Forall_forall _ _) Hj).
Qed.

Lemma sorted_int_sorted (l : list Z) : StronglySorted Z.le (sorted_int l).
Proof.
  induction l as [|i l IH]; simpl; [constructor | now apply insert_int_sorted].
Qed.

Lemma existsb_Zeqb_In (i : Z) (l : list Z) :
  existsb (Z.eqb i) l = true <-> In i l.
Proof.
  rewrite existsb_exists. split.
  - intros [j [Hj E]]. apply Z.eqb_eq in E. now subst.
  - intros H. exists i. split; [assumption | apply Z.eqb_refl].
Qed.

Lemma set_int_In (l : list Z) (i : Z) : In i (set_int l) <-> In i l.
Proof.
  induction l as [|j l IH]; simpl; [tauto|].
  destruct (existsb (Z.eqb j) l) eqn:E.
  - apply existsb_Zeqb_In in E. rewrite IH. split; [tauto|].
    intros [<-|H]; assumption.
  - simpl. now rewrite IH.
Qed.

Lemma set_int_NoDup (l : list Z) : NoDup (set_int l).
Proof.
  induction l as [|j l IH]; simpl; [constructor|].
  destruct (existsb (Z.eqb j) l) eqn:E; [assumption|].
  constructor; [|assumption]. rewrite set_int_In. intros H.
  apply existsb_Zeqb_In in H. congruence.
Qed.

Lemma sorted_NoDup_strict (l : list Z) :
  StronglySorted Z.le l -> NoDup l -> StronglySorted Z.lt l.
Proof.
  induction l as [|i l IH]; intros Hs Hn; [constructor|].
  inversion Hs as [|? ? Hl Hi]; subst. inversion Hn as [|? ? Hni Hnl]; subst.
  constructor; [now apply IH|].
  apply Forall_forall. intros k Hk.
  pose proof (proj1 (Forall_forall _ _) Hi k Hk) as Hle.
  assert (i <> k) by (intros ->; contradiction). lia.
Qed.

(** [sorted(list(set(ids)))]: strictly ascending, with the elements of [ids]. *)
Lemma sorted_set_int_spec (l : list Z) :
  StronglySorted Z.lt (sorted_int (set_int l)) /\
  forall i, In i (sorted_int (set_int l)) <-> In i l.
Proof.
  split.
  - apply sorted_NoDup_strict; [apply sorted_int_sorted|].
    apply (Permutation_NoDup (l := set_int l)); [|apply set_int_NoDup].
    apply Permutation_sym, sorted_int_perm.
  - intros i. split; intros H.
    + apply set_int_In. exact (Permutation_in _ (sorted_int_perm _) H).
    + apply (Permutation_in _ (Permutation_sym (sorted_int_perm _))).
      now apply set_int_In.
Qed.

Lemma insert_by_createdAt_sorted (c : Contact) (l : list Contact) :
  StronglySorted not_younger l -> StronglySorted not_younger (insert_by_createdAt c l).
Proof.
  induction l as [|d l IH]; intros Hs; simpl.
  - repeat constructor.
  - inversion Hs as [|? ? Hl Hd]; subst.
    destruct (createdAt c <=? createdAt d) eqn:E.
    + apply Z.leb_le in E. constructor; [assumption|].
      constructor; [exact E|].
      eapply Forall_impl; [|exact Hd]. unfold not_younger. intros k Hk. lia.
    + apply Z.leb_gt in E. constructor; [now apply IH|].
      apply Forall_forall. intros k Hk.
      apply (Permutation_in _ (insert_by_createdAt_perm c l)) in Hk.
      destruct Hk as [<-|Hk]; [unfold not_younger; lia|].
      now apply (proj1 (Forall_forall _ _) Hd).
Qed.

Lemma sorted_by_createdAt_sorted (l : list Contact) :
  StronglySorted not_younger (sorted_by_createdAt l).
Proof.
  induction l as [|c l IH]; simpl;
    [constructor | now apply insert_by_createdAt_sorted].
Qed.

(** ** The matcher and the resolver, further *)

Lemma NoDup_of_ids (l : list Contact) : NoDup (map id l) -> NoDup l.
Proof.
  induction l as [|c l IH]; simpl; intros H; [constructor|].
  inversion H as [|? ? Hn Hd]; subst. constructor; [|now apply IH].
  intros Hin. apply Hn. now apply in_map.
Qed.

Lemma matching_contacts_matches (req : IdentifyRequest) (db : Store) (c : Contact) :
  In c (matching_contacts req db) <-> In c db /\ matches req c.
Proof. apply matching_contacts_spec. Qed.

Lemma unique_matching_contacts_spec (req : IdentifyRequest) (db : Store) (c : Contact) :
  NoDup (map id db) ->
  (In c (unique_matching_contacts req db) <-> In c db /\ matches req c).
Proof.
  intros Hnd. rewrite <- matching_contacts_matches. split.
  - apply unique_matching_contacts_In.
  - intros Hm. destruct (dict_fromkeys_complete _ _ Hm) as [d [Hd Hid]].
    assert (d = c); [|now subst].
    apply (same_id_eq db); auto.
    + now apply unique_matching_contacts_db in Hd.
    + now apply matching_contacts_spec in Hm.
Qed.

Lemma next_id_above (db : Store) (i : Z) : In i (map id db) -> i < next_id db.
Proof.
  unfold next_id. induction db as [|c db IH]; [intros []|].
  intros Hi. cbn [map fold_right] in *.
  destruct Hi as [<-|Hi]; [lia|]. specialize (IH Hi). lia.
Qed.

Lemma committed_ids (now : Z) (req : IdentifyRequest) (db : Store)
      (main : Contact) (rest : list Contact) :
  exists added,
    map id (committed now req db main rest) = map id db ++ added /\
    (added = [] \/ added = [next_id db]).
Proof.
  unfold committed. rewrite map_app.
  rewrite map_id_map by (intros c; apply commit_row_id).
  destruct (new_information req _); eexists; split; try reflexivity; tauto.
Qed.

Lemma trace_back_orphans (db : Store) (secs acc : list Contact) :
  (forall s, In s secs -> primary_contact db s = None) ->
  fold_left (trace_back db) secs acc = acc.
Proof.
  revert acc. induction secs as [|s secs IH]; intros acc H; simpl; [reflexivity|].
  unfold trace_back at 2. rewrite (H s (or_introl eq_refl)).
  apply IH. intros x Hx. apply H. now right.
Qed.

Lemma filter_nil_iff {A : Type} (f : A -> bool) (l : list A) :
  filter f l = [] <-> forall c, In c l -> f c = false.
Proof.
  induction l as [|c l IH]; simpl.
  - split; [intros _ x [] | reflexivity].
  - destruct (f c) eqn:E.
    + split; [discriminate|]. intros H. specialize (H c (or_introl eq_refl)). congruence.
    + rewrite IH. split.
      * intros H x [<-|Hx]; [assumption | now apply H].
      * intros H x Hx. apply H. now right.
Qed.

Lemma primary_contacts_nil_iff (req : IdentifyRequest) (db : Store) :
  primary_contacts req db = [] <->
  forall c, In c (unique_matching_contacts req db) -> orphan db c.
Proof.
  split.
  - intros Hp c Hc. unfold orphan.
    assert (Hcand : candidate_primaries req db = []).
    { destruct (candidate_primaries req db) as [|p l] eqn:E; [reflexivity|].
      destruct (dict_fromkeys_complete (p :: l) p (or_introl eq_refl)) as [d [Hd _]].
      rewrite <- E in Hd. apply sorted_by_createdAt_In in Hd.
      fold (primary_contacts req db) in Hd. rewrite Hp in Hd. destruct Hd. }
    unfold candidate_primaries in Hcand.
    destruct (linkPrecedence c) eqn:Ec.
    + exfalso.
      assert (Hin : In c (fold_left (trace_back db)
                            (filter is_secondary (unique_matching_contacts req db))
                            (sorted_by_createdAt
                               (filter is_primary (unique_matching_contacts req db))))).
      { apply trace_back_incl, sorted_by_createdAt_In, filter_In.
        split; [assumption | now apply is_primary_true]. }
      rewrite Hcand in Hin. destruct Hin.
    + split; [reflexivity|].
      destruct (primary_contact db c) as [p|] eqn:Ep; [|reflexivity].
      exfalso.
      assert (Hs : In c (filter is_secondary (unique_matching_contacts req db))).
      { apply filter_In. split; [assumption | now apply is_secondary_true]. }
      clear Hp. revert Hcand Hs.
      generalize (sorted_by_createdAt
                    (filter is_primary (unique_matching_contacts req db))).
      generalize (filter is_secondary (unique_matching_contacts req db)).
      intros secs. induction secs as [|s secs IH]; intros acc Hf Hs; [destruct Hs|].
      simpl in Hf. destruct Hs as [->|Hs].
      * assert (Hne : trace_back db acc c <> []).
        { unfold trace_back. rewrite Ep.
          destruct (contact_in p acc) eqn:E.
          - apply contact_in_true in E. destruct E as [d [Hd _]].
            intros ->. destruct Hd.
          - intros H. apply app_eq_nil in H. destruct H as [_ H]. discriminate. }
        destruct (trace_back db acc c) as [|q l] eqn:Eq; [congruence|].
        assert (Hq : In q (fold_left (trace_back db) secs (q :: l)))
          by (apply trace_back_incl; now left).
        rewrite Hf in Hq. destruct Hq.
      * now apply (IH (trace_back db acc s)).
  - intros H. unfold primary_contacts, candidate_primaries.
    assert (Hprim : filter is_primary (unique_matching_contacts req db) = []).
    { apply filter_nil_iff. intros c Hc. destruct (H c Hc) as [Hs _].
      unfold is_primary. now rewrite Hs. }
    rewrite Hprim. simpl. rewrite trace_back_orphans; [reflexivity|].
    intros s Hs. apply filter_In in Hs. now apply H.
Qed.

Section MatcherAndResolver.

Context {PS : PySet}.

(** X1 (lines 113-120): on a table with unique ids, the matched list
    holds exactly the rows that carry the supplied email or the supplied
    phone number, each of them once. *)
Theorem matcher_returns_each_match_once (req : IdentifyRequest) (db : Store) :
  NoDup (map id db) ->
  NoDup (unique_matching_contacts req db) /\
  NoDup (map id (unique_matching_contacts req db)) /\
  forall c, In c (unique_matching_contacts req db) <-> In c db /\ matches req c.
Proof.
  intros Hnd. split; [|split].
  - apply NoDup_of_ids, dict_fromkeys_NoDup.
  - apply dict_fromkeys_NoDup.
  - intros c. now apply unique_matching_contacts_spec.
Qed.

(** X2 (lines 146-161): whatever the table, the resolved primaries are
    rows of the table, are listed oldest first (createdAt ascending), and
    no two of them have the same id. *)
Theorem resolver_lists_oldest_first (req : IdentifyRequest) (db : Store) :
  StronglySorted not_younger (primary_contacts req db) /\
  NoDup (map id (primary_contacts req db)) /\
  forall p, In p (primary_contacts req db) -> In p db.
Proof.
  split; [|split].
  - apply sorted_by_createdAt_sorted.
  - apply primary_contacts_NoDup.
  - apply primary_contacts_db.
Qed.

(** X3 (lines 122-131, 186-211): on a table whose ids are positive and
    below the largest rowid (where the database hands out the largest id
    plus one), whatever the request, a call keeps the ids of the existing
    rows, in their order, and adds at most one row, whose id is greater
    than every id already in the table. *)
Theorem request_appends_at_most_one_row (now : Z) (req : IdentifyRequest) (db : Store) :
  rowids_in_range db ->
  exists added,
    map id (snd (identify_contact now req db)) = map id db ++ added /\
    (added = [] \/
     exists i, added = [i] /\ forall j, In j (map id db) -> j < i).
Proof.
  intros _.
  assert (Hab : forall j, In j (map id db) -> j < next_id db)
    by apply next_id_above.
  destruct (identify_contact_cases now req db)
    as [[e [H Hidx]]|[(Hs & Hu & H)|(main & rest & Hp & H)]]; rewrite H; simpl.
  - exists []. rewrite app_nil_r. tauto.
  - exists [next_id db]. rewrite map_app. simpl.
    split; [reflexivity|]. right. eauto.
  - destruct (committed_ids now req db main rest) as [added [H1 [ -> | -> ]]].
    + exists []. tauto.
    + exists [next_id db]. split; [assumption|]. right. eauto.
Qed.

(** X4 (line 164): the call raises [IndexError], leaving the table as it
    was, exactly when some row matched and every matched row is an
    orphan, that is a secondary whose linkedId is null or refers to no
    row. *)
Theorem orphan_matches_raise_IndexError (now : Z) (req : IdentifyRequest) (db : Store) :
  identify_contact now req db = (inl IndexError, db) <->
  unique_matching_contacts req db <> [] /\
  forall c, In c (unique_matching_contacts req db) -> orphan db c.
Proof.
  split.
  - intros Hres.
    destruct (identify_contact_cases now req db)
      as [[e [H Hidx]]|[(Hs & Hu & H)|(main & rest & Hp & H)]];
      rewrite H in Hres; try discriminate.
    injection Hres as ->. destruct (Hidx eq_refl) as [Hu Hp].
    split; [assumption|]. now apply primary_contacts_nil_iff.
  - intros [Hu Ho].
    assert (Hs : supplied req).
    { unfold supplied.
      destruct (is_truthy (req_email req)) eqn:He; [now left|].
      destruct (is_truthy (req_phoneNumber req)) eqn:Hp; [now right|].
      exfalso. apply Hu. unfold unique_matching_contacts.
      now rewrite matching_contacts_unsupplied. }
    apply identify_contact_index_error; try assumption.
    now apply primary_contacts_nil_iff.
Qed.

(** X5 (lines 106-253): on a table that satisfies the data-model
    invariants, every request with at least one field supplied is
    answered with a response; no exception is raised. *)
Theorem supplied_request_is_answered (now : Z) (req : IdentifyRequest) (db : Store) :
  wf_store db -> supplied req ->
  exists resp, fst (identify_contact now req db) = inr resp.
Proof.
  intros Hwf Hs.
  destruct (unique_matching_contacts req db) as [|u us] eqn:Eu.
  - rewrite (identify_contact_unmatched now req db Hs Eu). simpl. eauto.
  - assert (Hne : unique_matching_contacts req db <> [])
      by (rewrite Eu; discriminate).
    pose proof (primary_contacts_nonempty req db Hwf Hne) as Hp.
    destruct (primary_contacts req db) as [|main rest] eqn:Ep; [congruence|].
    rewrite (identify_contact_matched now req db main rest Ep). simpl. eauto.
Qed.

End MatcherAndResolver.

(** ** The groups before and after a resolved request *)

Lemma groups_of_In (db : Store) (prims : list Contact) (c : Contact) :
  In c (groups_of db prims) <->
  exists r, In r prims /\ (c = r \/ (In c db /\ linkedId c = Some (id r))).
Proof.
  unfold groups_of, group_of. rewrite in_flat_map. split.
  - intros [r [Hr [<-|Hc]]]; exists r; split; try assumption; [now left|].
    right. now apply secondary_contacts_In.
  - intros [r [Hr [->|Hc]]]; exists r; split; try assumption; [now left|].
    right. now apply secondary_contacts_In.
Qed.

Lemma groups_of_cons (db : Store) (r : Contact) (rest : list Contact) :
  groups_of db (r :: rest) = r :: secondary_contacts db r ++ groups_of db rest.
Proof. reflexivity. Qed.

Lemma deref_map (f : Contact -> Contact) (db : Store) (x : Contact) :
  NoDup (map id db) -> (forall c, id (f c) = id c) -> In x db ->
  deref (map f db) (id x) = [f x].
Proof.
  intros Hnd Hf Hx. unfold deref.
  change (find (has_id (id x)) (map f db)) with (stored (map f db) (id x)).
  now rewrite (stored_map f db _ Hf), (stored_In db x Hnd Hx).
Qed.

Lemma deref_map_all (f : Contact -> Contact) (db : Store) (l : list Contact) :
  NoDup (map id db) -> (forall c, id (f c) = id c) -> (forall x, In x l -> In x db) ->
  flat_map (deref (map f db)) (map id l) = map f l.
Proof.
  intros Hnd Hf. induction l as [|x l IH]; intros Hl; simpl; [reflexivity|].
  rewrite (deref_map f db x Hnd Hf (Hl x (or_introl eq_refl))). simpl.
  f_equal. apply IH. intros y Hy. apply Hl. now right.
Qed.

Lemma relink_children_snd (m : Z) (children : list Contact) (st : Session * list Z) :
  snd (fold_left (relink_child m) children st) = snd st ++ map id children.
Proof.
  revert st. induction children as [|ch children IH]; intros st; simpl.
  - now rewrite app_nil_r.
  - rewrite IH. simpl. now rewrite <- app_assoc.
Qed.

Lemma demote_snd (db : Store) (m : Z) (st : Session * list Z) (contact : Contact) :
  snd (demote db m st contact) = snd st ++ map id (group_of db contact).
Proof.
  unfold demote. rewrite relink_children_snd. simpl.
  now rewrite <- app_assoc.
Qed.

Lemma merge_loop_snd (db : Store) (m : Z) (rest : list Contact) (st : Session * list Z) :
  snd (fold_left (demote db m) rest st)
  = snd st ++ map id (groups_of db rest).
Proof.
  revert st. induction rest as [|r rest IH]; intros st; cbn [fold_left].
  - simpl. now rewrite app_nil_r.
  - rewrite IH, demote_snd. unfold groups_of. cbn [flat_map].
    now rewrite map_app, <- app_assoc.
Qed.

(** [contacts_to_update] holds the absorbed primaries, each followed by
    the rows linked to it. *)
Lemma merge_snd (db : Store) (main : Contact) (rest : list Contact) :
  snd (merge db main (main :: rest)) = map id (groups_of db rest).
Proof.
  unfold merge. destruct rest as [|r rest]; [reflexivity|].
  change (1 <? List.length (main :: r :: rest))%nat with true.
  cbv iota. simpl tl. apply merge_loop_snd.
Qed.

Lemma same_values_supplies (req : IdentifyRequest) (A B : list Contact) :
  (forall c, In c B -> exists c', In c' A /\ email c' = email c /\
                                  phoneNumber c' = phoneNumber c) ->
  supplies_new_value req A -> supplies_new_value req B.
Proof.
  intros HBA [[e [He H]]|[p [Hp H]]]; [left; exists e | right; exists p];
    (split; [assumption|]); intros c Hc Hf;
    destruct (HBA c Hc) as [c' (Hc' & E1 & E2)];
    apply (H c' Hc'); congruence.
Qed.

Section Resolved.

Variables (now : Z) (req : IdentifyRequest) (db : Store).
Variables (main : Contact) (rest : list Contact).
Hypothesis Hwf : wf_store db.
Hypothesis Hp : primary_contacts req db = main :: rest.

Let f : Contact -> Contact := commit_row now db (id main) rest.
Let db1 : Store := committed now req db main rest.
Let new : Contact :=
  mkContact (next_id db) (req_phoneNumber req) (req_email req)
            (Some (id main)) secondary now now.

Lemma resolved_NoDup : NoDup (map id db).
Proof. exact (proj1 (proj1 (wf_store_spec db) Hwf)). Qed.

Lemma resolved_link_ok (c : Contact) : In c db -> link_ok db c = true.
Proof. exact (proj2 (proj1 (wf_store_spec db) Hwf) c). Qed.

Lemma resolved_rest_db (r : Contact) : In r rest -> In r db.
Proof.
  intros Hr.
  destruct (resolved_facts req db main rest Hwf Hp) as (_ & _ & _ & H).
  now apply H.
Qed.

Lemma resolved_main_db : In main db.
Proof.
  now destruct (resolved_facts req db main rest Hwf Hp) as (H & _).
Qed.

Lemma commit_main : f main = main.
Proof.
  destruct (resolved_facts req db main rest Hwf Hp) as (H1 & H2 & H3 & H4).
  apply commit_row_untouched; [assumption|].
  apply not_linked_child_of; [apply resolved_NoDup | assumption |].
  intros r _.
  now rewrite (link_ok_primary db main (resolved_link_ok main H1) H2).
Qed.

Lemma stored_main : stored db1 (id main) = Some main.
Proof.
  unfold db1.
  rewrite (stored_committed now req db main rest _ main
             (stored_In db main resolved_NoDup resolved_main_db)).
  f_equal. apply commit_main.
Qed.

Lemma refresh_main : refresh db1 main = main.
Proof.
  unfold refresh. pose proof stored_main as H. unfold stored in H. now rewrite H.
Qed.

Lemma groups_of_db (c : Contact) : In c (groups_of db (main :: rest)) -> In c db.
Proof.
  intros H. apply groups_of_In in H. destruct H as [r [Hr [->|[Hc _]]]]; [|assumption].
  destruct Hr as [<-|Hr]; [apply resolved_main_db | now apply resolved_rest_db].
Qed.

(** A row of the table is linked to [main] after the commit exactly when
    it belonged to one of the resolved groups and is not [main] itself. *)
Lemma linked_after_commit (c : Contact) :
  In c db ->
  (linkedId (f c) = Some (id main) <->
   In c rest \/ exists r, In r (main :: rest) /\ linkedId c = Some (id r)).
Proof.
  intros Hc. unfold f. rewrite commit_row_linkedId. split.
  - destruct (contact_in c rest) eqn:E1; simpl.
    + intros _. left. apply contact_in_true in E1. destruct E1 as [r [Hr Hid]].
      assert (r = c); [|now subst].
      apply (same_id_eq db); auto using resolved_NoDup, resolved_rest_db.
    + destruct (child_of db rest c) eqn:E2.
      * intros _. right.
        apply (child_of_linked db rest c resolved_NoDup Hc) in E2.
        destruct E2 as [r [Hr Hl]]. exists r. split; [now right | assumption].
      * intros Hl. right. exists main. split; [now left | assumption].
  - intros [Hr|[r [[<-|Hr] Hl]]].
    + assert (contact_in c rest = true) as ->; [|reflexivity].
      apply contact_in_true. eauto.
    + now destruct (contact_in c rest || child_of db rest c).
    + assert (child_of db rest c = true) as ->; [|now rewrite orb_true_r].
      apply (child_of_linked db rest c resolved_NoDup Hc). eauto.
Qed.

Lemma groups_member (c : Contact) :
  In c (groups_of db (main :: rest)) <->
  c = main \/ (In c db /\ linkedId (f c) = Some (id main)).
Proof.
  rewrite groups_of_In. split.
  - intros [r [Hr [->|[Hc Hl]]]].
    + destruct Hr as [<-|Hr]; [now left|]. right.
      split; [now apply resolved_rest_db|].
      apply linked_after_commit; [now apply resolved_rest_db | now left].
    + right. split; [assumption|]. apply linked_after_commit; eauto.
  - intros [->|[Hc Hl]].
    + exists main. split; [now left | now left].
    + apply (linked_after_commit c Hc) in Hl.
      destruct Hl as [Hr|[r [Hr Hl]]].
      * exists c. split; [now right | now left].
      * exists r. tauto.
Qed.

Lemma new_row_created :
  new_information req (all_related_contacts db main (merge db main (main :: rest)))
  = true ->
  db1 = map f db ++ [new].
Proof. intros H. unfold db1, committed. now rewrite H. Qed.

Lemma no_row_created :
  new_information req (all_related_contacts db main (merge db main (main :: rest)))
  = false ->
  db1 = map f db.
Proof. intros H. unfold db1, committed. rewrite H. apply app_nil_r. Qed.

Lemma group_after_commit (c' : Contact) :
  In c' (group_of db1 main) <->
  (exists c, In c (groups_of db (main :: rest)) /\ c' = f c) \/
  (new_information req (all_related_contacts db main (merge db main (main :: rest)))
   = true /\ c' = new).
Proof.
  unfold group_of. simpl. rewrite secondary_contacts_In. split.
  - intros [<-|[Hin Hl]].
    + left. exists main. split; [|symmetry; apply commit_main].
      apply groups_member. now left.
    + unfold db1, committed in Hin. apply in_app_or in Hin.
      destruct Hin as [Hin|Hin].
      * apply in_map_iff in Hin. destruct Hin as [c [<- Hc]].
        left. exists c. split; [|reflexivity].
        apply groups_member. right. tauto.
      * destruct (new_information req _); [|destruct Hin].
        destruct Hin as [<-|[]]. right. tauto.
  - intros [[c [Hc ->]]|[Hn ->]].
    + apply groups_member in Hc. destruct Hc as [->|[Hc Hl]].
      * left. symmetry. apply commit_main.
      * right. split; [|assumption].
        unfold db1, committed. apply in_or_app. left. now apply in_map.
    + right. split; [|reflexivity].
      rewrite (new_row_created Hn). apply in_or_app. right. now left.
Qed.

Lemma all_related_contacts_spec :
  all_related_contacts db main (merge db main (main :: rest))
  = main :: secondary_contacts db main
         ++ map (merge_row db (id main) rest) (groups_of db rest).
Proof.
  unfold all_related_contacts. rewrite merge_fst, merge_snd. simpl. do 2 f_equal.
  apply deref_map_all.
  - apply resolved_NoDup.
  - intros c. apply merge_row_id.
  - intros x Hx. apply groups_of_db. rewrite groups_of_cons.
    right. apply in_or_app. now right.
Qed.

(** The rows the new-information check looks at carry the emails and
    phone numbers of the resolved groups, and no others. *)
Lemma all_related_values_l (c : Contact) :
  In c (all_related_contacts db main (merge db main (main :: rest))) ->
  exists c', In c' (groups_of db (main :: rest)) /\
             email c' = email c /\ phoneNumber c' = phoneNumber c.
Proof.
  rewrite all_related_contacts_spec, groups_of_cons.
  intros [<-|H]; [exists main; split; [now left | tauto]|].
  apply in_app_or in H. destruct H as [H|H].
  - exists c. split; [right; apply in_or_app; now left | tauto].
  - apply in_map_iff in H. destruct H as [c0 [<- Hc0]].
    exists c0. split; [right; apply in_or_app; now right|].
    destruct (merge_row_same_data db (id main) rest c0) as [(_ & E1 & E2 & _) _].
    split; congruence.
Qed.

Lemma all_related_values_r (c : Contact) :
  In c (groups_of db (main :: rest)) ->
  exists c', In c' (all_related_contacts db main (merge db main (main :: rest))) /\
             email c' = email c /\ phoneNumber c' = phoneNumber c.
Proof.
  rewrite all_related_contacts_spec, groups_of_cons.
  intros [<-|H]; [exists main; split; [now left | tauto]|].
  apply in_app_or in H. destruct H as [H|H].
  - exists c. split; [right; apply in_or_app; now left | tauto].
  - exists (merge_row db (id main) rest c).
    split; [right; apply in_or_app; right; now apply in_map|].
    destruct (merge_row_same_data db (id main) rest c) as [(_ & E1 & E2 & _) _].
    tauto.
Qed.

Lemma new_information_groups :
  new_information req (all_related_contacts db main (merge db main (main :: rest)))
  = true <->
  supplies_new_value req (groups_of db (main :: rest)).
Proof.
  rewrite new_information_spec. split; apply same_values_supplies.
  - apply all_related_values_r.
  - apply all_related_values_l.
Qed.

Lemma resolved_main_primary : linkPrecedence main = primary.
Proof.
  now destruct (resolved_facts req db main rest Hwf Hp) as (_ & H & _).
Qed.

Lemma wf_db1 : wf_store db1.
Proof. now apply wf_committed. Qed.

(** After the commit the group of [main] holds every supplied value. *)
Lemma group_has_supplied (g : Contact -> option string)
      (v : option string) (s : string) :
  (g = email /\ v = req_email req) \/ (g = phoneNumber /\ v = req_phoneNumber req) ->
  truthy v = Some s ->
  exists c, In c (group_of db1 main) /\ g c = Some s.
Proof.
  intros Hg Hv.
  destruct (new_information req
              (all_related_contacts db main (merge db main (main :: rest)))) eqn:E.
  - exists new. split; [apply group_after_commit; right; now split|].
    apply truthy_Some in Hv. destruct Hg as [[-> ->]|[-> ->]]; simpl; tauto.
  - assert (Hrel : exists c,
               In c (all_related_contacts db main (merge db main (main :: rest))) /\
               g c = Some s).
    { unfold new_information in E. apply orb_false_iff in E. destruct E as [E1 E2].
      assert (Hex : existsb (String.eqb s)
                      (truthy_values g
                         (all_related_contacts db main
                            (merge db main (main :: rest)))) = true).
      { destruct Hg as [[-> ->]|[-> ->]].
        - unfold is_new in E1. rewrite Hv in E1. now apply negb_false_iff in E1.
        - unfold is_new in E2. rewrite Hv in E2. now apply negb_false_iff in E2. }
      apply existsb_eqb_In, truthy_values_In in Hex.
      destruct Hex as [c [Hc Hs]]. exists c. split; [assumption|].
      now apply truthy_Some in Hs. }
    destruct Hrel as [c [Hc Hs]].
    destruct (all_related_values_l c Hc) as [c0 (Hc0 & E1 & E2)].
    exists (f c0). split; [apply group_after_commit; left; eauto|].
    destruct (commit_row_same_data now db (id main) rest c0) as (_ & K1 & K2 & _).
    fold f in K1, K2. destruct Hg as [[-> _]|[-> _]]; congruence.
Qed.

Lemma matched_in_groups (c : Contact) :
  In c db -> matches req c -> In c (groups_of db (main :: rest)).
Proof.
  intros Hc Hm.
  assert (Hu : In c (unique_matching_contacts req db))
    by (apply (unique_matching_contacts_spec req db c resolved_NoDup); tauto).
  destruct (owner_exists db c Hwf Hc) as [p (Ho & _ & _)].
  pose proof (primary_contacts_complete req db c p resolved_NoDup Hu Ho) as Hin.
  rewrite Hp in Hin. apply groups_of_In. exists p. split; [assumption|].
  unfold owner in Ho. destruct (linkPrecedence c).
  - left. congruence.
  - right. apply primary_contact_Some in Ho. tauto.
Qed.

Lemma matches_same_data (c c' : Contact) :
  same_data c c' -> (matches req c' <-> matches req c).
Proof.
  intros (_ & E1 & E2 & _). unfold matches. now rewrite E1, E2.
Qed.

Lemma matched_after_commit (c' : Contact) :
  In c' db1 -> matches req c' -> In c' (group_of db1 main).
Proof.
  intros Hin Hm. unfold db1, committed in Hin. apply in_app_or in Hin.
  destruct Hin as [Hin|Hin].
  - apply in_map_iff in Hin. destruct Hin as [c [<- Hc]].
    apply group_after_commit. left. exists c. split; [|reflexivity].
    apply (matched_in_groups c Hc).
    now apply (matches_same_data c _ (commit_row_same_data now db (id main) rest c)).
  - apply group_after_commit. right.
    destruct (new_information req _); [|destruct Hin].
    destruct Hin as [<-|[]]. now split.
Qed.

Lemma owner_in_group (c' : Contact) :
  In c' (group_of db1 main) -> owner db1 c' = Some main.
Proof.
  intros [<-|Hc].
  - unfold owner. now rewrite resolved_main_primary.
  - apply secondary_contacts_In in Hc. destruct Hc as [Hin Hl].
    pose proof (proj2 (proj1 (wf_store_spec db1) wf_db1) c' Hin) as Hok.
    unfold owner. destruct (linkPrecedence c') eqn:E.
    + rewrite (link_ok_primary db1 c' Hok E) in Hl. discriminate.
    + unfold primary_contact. rewrite Hl. exact stored_main.
Qed.

Lemma replay_matches_something : unique_matching_contacts req db1 <> [].
Proof.
  assert (Hne : primary_contacts req db <> []) by (rewrite Hp; discriminate).
  destruct (primary_contacts_supplied req db Hne) as [Hu _].
  destruct (unique_matching_contacts req db) as [|u us] eqn:E; [congruence|].
  assert (Hin : In u (unique_matching_contacts req db)) by (rewrite E; now left).
  apply (unique_matching_contacts_spec req db u resolved_NoDup) in Hin.
  destruct Hin as [Hdb Hm].
  assert (H1 : In (f u) (unique_matching_contacts req db1)).
  { apply unique_matching_contacts_spec.
    - exact (proj1 (proj1 (wf_store_spec db1) wf_db1)).
    - split.
      + unfold db1, committed. apply in_or_app. left. now apply in_map.
      + now apply (matches_same_data u _ (commit_row_same_data now db (id main) rest u)). }
  intros Hnil. rewrite Hnil in H1. destruct H1.
Qed.

End Resolved.

(** ** The response and the table after a request *)

Lemma singleton_of_same (l : list Contact) (m : Contact) :
  l <> [] -> NoDup (map id l) -> (forall p, In p l -> p = m) -> l = [m].
Proof.
  destruct l as [|x [|y l]]; intros Hne Hnd Hall.
  - congruence.
  - now rewrite (Hall x (or_introl eq_refl)).
  - exfalso. rewrite (Hall x (or_introl eq_refl)) in Hnd.
    rewrite (Hall y (or_intror (or_introl eq_refl))) in Hnd.
    inversion Hnd as [|? ? Hn _]; subst. apply Hn. now left.
Qed.

Lemma hd_error_In (l : list string) (s : string) : hd_error l = Some s -> In s l.
Proof. destruct l; simpl; [discriminate|]. intros H. injection H as ->. now left. Qed.

Lemma secondary_ids_spec (T : Store) (m : Contact) {PS : PySet} :
  wf_store T -> In m T -> linkPrecedence m = primary ->
  primaryContatctId (build_response T m) = id m /\
  StronglySorted Z.lt (secondaryContactIds (build_response T m)) /\
  ~ In (id m) (secondaryContactIds (build_response T m)) /\
  forall i, In i (secondaryContactIds (build_response T m)) <->
            exists c, In c T /\ id c = i /\ linkedId c = Some (id m).
Proof.
  intros Hwf Hm Hprim.
  pose proof (proj1 (wf_store_spec T) Hwf) as [Hnd Hok].
  assert (Href : refresh T m = m).
  { unfold refresh. pose proof (stored_In T m Hnd Hm) as H.
    unfold stored in H. now rewrite H. }
  unfold build_response. cbv zeta. rewrite Href.
  cbn [primaryContatctId secondaryContactIds].
  destruct (sorted_set_int_spec
              (map id (filter is_secondary ([m] ++ secondary_contacts T m))))
    as [Hsorted Hin].
  assert (Hchar : forall i,
             In i (map id (filter is_secondary ([m] ++ secondary_contacts T m))) <->
             exists c, In c T /\ id c = i /\ linkedId c = Some (id m)).
  { intros i. rewrite in_map_iff. split.
    - intros [c [Hid Hc]]. apply filter_In in Hc. destruct Hc as [Hc Hs].
      apply is_secondary_true in Hs. destruct Hc as [<-|Hc]; [congruence|].
      apply secondary_contacts_In in Hc. exists c. tauto.
    - intros [c (Hc & Hid & Hl)]. exists c. split; [assumption|].
      apply filter_In. split.
      + right. now apply secondary_contacts_In.
      + apply is_secondary_true. destruct (linkPrecedence c) eqn:E; [|reflexivity].
        rewrite (link_ok_primary T c (Hok c Hc) E) in Hl. discriminate. }
  split; [reflexivity|]. split; [assumption|]. split.
  - intros H. apply Hin, Hchar in H. destruct H as [c (Hc & Hid & Hl)].
    assert (c = m) by (apply (same_id_eq T); auto). subst c.
    rewrite (link_ok_primary T m (Hok m Hm) Hprim) in Hl. discriminate.
  - intros i. now rewrite Hin, Hchar.
Qed.

Lemma ordered_values_complete {PS : PySet} (own : option string)
      (vals : list string) (s : string) :
  s <> EmptyString -> In s vals -> In s (ordered_values own vals).
Proof.
  intros Hs Hin.
  destruct (ordered_values_spec own vals) as (others & H1 & _ & H3 & H4).
  assert (Hdec : own = Some s \/ own <> Some s).
  { destruct own as [t|]; [|right; discriminate].
    destruct (string_dec t s) as [->|Hne]; [now left | right; congruence]. }
  destruct Hdec as [->|Hne].
  - apply hd_error_In, H3. now apply truthy_of_Some.
  - rewrite H1. apply in_or_app. right. apply H4. tauto.
Qed.

Lemma ordered_values_own_only {PS : PySet} (own : option string) (vals : list string) :
  (forall x, In x vals -> own = Some x) ->
  ordered_values own vals = own_value own.
Proof.
  intros H. unfold ordered_values, own_value.
  assert (Hnil : filter (fun e => negb (option_eqb String.eqb (Some e) own))
                        (set_iter vals) = []).
  { apply filter_nil_iff. intros x Hx. apply (proj1 (set_iter_In _ _)) in Hx.
    rewrite (H x Hx). simpl. now rewrite String.eqb_refl. }
  rewrite Hnil. apply app_nil_r.
Qed.

Lemma matches_own_row (req : IdentifyRequest) (i t : Z) (l : option Z)
      (prec : LinkPrecedence) :
  supplied req ->
  matches req (mkContact i (req_phoneNumber req) (req_email req) l prec t t).
Proof.
  unfold supplied, is_truthy, matches. simpl. intros [H|H].
  - destruct (truthy (req_email req)) as [e|] eqn:E; [|discriminate].
    left. exists e. split; [reflexivity | now apply truthy_Some in E].
  - destruct (truthy (req_phoneNumber req)) as [p|] eqn:E; [|discriminate].
    right. exists p. split; [reflexivity | now apply truthy_Some in E].
Qed.

Section Replay.

Context {PS : PySet}.

Lemma replay_resolved (now now2 : Z) (req : IdentifyRequest) (db : Store)
      (main : Contact) (rest : list Contact) :
  wf_store db -> primary_contacts req db = main :: rest ->
  identify_contact now2 req (committed now req db main rest)
  = (inr (build_response (committed now req db main rest) main),
     committed now req db main rest).
Proof.
  intros Hwf Hp. set (db1 := committed now req db main rest).
  pose proof (wf_db1 now req db main rest Hwf Hp) as Hwf1. fold db1 in Hwf1.
  pose proof (proj1 (wf_store_spec db1) Hwf1) as [Hnd1 _].
  assert (Hprims : primary_contacts req db1 = [main]).
  { apply singleton_of_same.
    - apply (primary_contacts_nonempty req db1 Hwf1).
      apply (replay_matches_something now req db main rest Hwf Hp).
    - apply primary_contacts_NoDup.
    - intros p Hin. apply primary_contacts_In in Hin.
      destruct Hin as [c [Hc Ho]].
      apply (unique_matching_contacts_spec req db1 c Hnd1) in Hc.
      destruct Hc as [Hc Hm].
      pose proof (matched_after_commit now req db main rest Hwf Hp c Hc Hm) as Hg.
      pose proof (owner_in_group now req db main rest Hwf Hp c Hg) as Ho'.
      fold db1 in Ho'. congruence. }
  rewrite (identify_contact_matched now2 req db1 main [] Hprims).
  assert (Hsame : committed now2 req db1 main [] = db1).
  { rewrite committed_single.
    destruct (new_information req (group_of db1 main)) eqn:E; [|apply app_nil_r].
    exfalso. apply new_information_spec in E.
    destruct E as [[e [He H]]|[p [Hph H]]].
    - destruct (group_has_supplied now req db main rest Hwf Hp email
                  (req_email req) e (or_introl (conj eq_refl eq_refl)) He)
        as [c [Hc Hv]].
      now apply (H c Hc).
    - destruct (group_has_supplied now req db main rest Hwf Hp phoneNumber
                  (req_phoneNumber req) p (or_intror (conj eq_refl eq_refl)) Hph)
        as [c [Hc Hv]].
      now apply (H c Hc). }
  now rewrite Hsame.
Qed.

Lemma replay_created (now now2 : Z) (req : IdentifyRequest) (db : Store) :
  wf_store db -> supplied req -> unique_matching_contacts req db = [] ->
  identify_contact now2 req
    (db ++ [mkContact (next_id db) (req_phoneNumber req) (req_email req)
                      None primary now now])
  = (inr (mkResponse (next_id db)
            (match truthy (req_email req) with Some e => [e] | None => [] end)
            (match truthy (req_phoneNumber req) with Some p => [p] | None => [] end)
            []),
     db ++ [mkContact (next_id db) (req_phoneNumber req) (req_email req)
                      None primary now now]).
Proof.
  intros Hwf Hs Hu.
  set (new := mkContact (next_id db) (req_phoneNumber req) (req_email req)
                        None primary now now).
  set (db1 := db ++ [new]).
  pose proof (proj1 (wf_store_spec db) Hwf) as [Hnd _].
  assert (Hwf1 : wf_store db1)
    by (apply wf_append; [assumption | apply next_id_fresh | reflexivity]).
  pose proof (proj1 (wf_store_spec db1) Hwf1) as [Hnd1 _].
  assert (Hnew : In new db1) by (apply in_or_app; right; now left).
  assert (Honly : forall c, In c db1 -> matches req c -> c = new).
  { intros c Hc Hm. apply in_app_or in Hc. destruct Hc as [Hc|[<-|[]]]; [|reflexivity].
    exfalso.
    assert (Hin : In c (unique_matching_contacts req db))
      by (apply (unique_matching_contacts_spec req db c Hnd); tauto).
    rewrite Hu in Hin. destruct Hin. }
  assert (Hprims : primary_contacts req db1 = [new]).
  { apply singleton_of_same.
    - apply (primary_contacts_nonempty req db1 Hwf1).
      intros Hnil.
      assert (Hin : In new (unique_matching_contacts req db1)).
      { apply (unique_matching_contacts_spec req db1 new Hnd1).
        split; [assumption | now apply matches_own_row]. }
      rewrite Hnil in Hin. destruct Hin.
    - apply primary_contacts_NoDup.
    - intros p Hin. apply primary_contacts_In in Hin.
      destruct Hin as [c [Hc Ho]].
      apply (unique_matching_contacts_spec req db1 c Hnd1) in Hc.
      destruct Hc as [Hc Hm]. rewrite (Honly c Hc Hm) in Ho.
      unfold owner in Ho. simpl in Ho. congruence. }
  rewrite (identify_contact_matched now2 req db1 new [] Hprims).
  assert (Hsame : committed now2 req db1 new [] = db1).
  { rewrite committed_single.
    destruct (new_information req (group_of db1 new)) eqn:E; [|apply app_nil_r].
    exfalso. apply new_information_spec in E.
    now apply (replay_supplies_nothing_new req (next_id db) now
                 (secondary_contacts db1 new)). }
  rewrite Hsame. f_equal. f_equal.
  assert (Href : refresh db1 new = new).
  { unfold refresh.
    pose proof (stored_app_new db new (next_id_fresh db)) as H.
    unfold stored in H. fold db1 in H. now rewrite H. }
  assert (Hsec : secondary_contacts db1 new = []).
  { unfold secondary_contacts. apply filter_nil_iff. intros c Hc.
    destruct (sql_eq_int (linkedId c) (id new)) eqn:E; [|reflexivity].
    exfalso. apply sql_eq_int_true in E.
    apply in_app_or in Hc. destruct Hc as [Hc|[<-|[]]].
    - now apply (no_links_to_fresh db c Hwf Hc).
    - discriminate. }
  unfold build_response. cbv zeta. rewrite Href, Hsec. simpl.
  rewrite !app_nil_r.
  rewrite (ordered_values_own_only (req_email req)).
  - rewrite (ordered_values_own_only (req_phoneNumber req)); [reflexivity|].
    intros x Hx. destruct (truthy (req_phoneNumber req)) as [p|] eqn:E;
      [|destruct Hx].
    destruct Hx as [<-|[]]. now apply truthy_Some in E.
  - intros x Hx. destruct (truthy (req_email req)) as [e|] eqn:E; [|destruct Hx].
    destruct Hx as [<-|[]]. now apply truthy_Some in E.
Qed.

End Replay.

Section FurtherClaims.

Context {PS : PySet}.

(** X6 (lines 186-208): on a table that satisfies the data-model
    invariants, when the matched rows resolve to [main :: rest] (one group
    or several), the new-information check is made against the members
    of all the resolved groups: if the request supplies an email none of
    them has, or a phone number none of them has, exactly one row is
    appended, a secondary carrying both given fields and linked to
    [main]; otherwise no row is added. *)
Theorem new_secondary_iff_new_to_resolved_groups (now : Z) (req : IdentifyRequest)
        (db : Store) (main : Contact) (rest : list Contact) :
  wf_store db -> primary_contacts req db = main :: rest ->
  (supplies_new_value req (groups_of db (main :: rest)) ->
   exists updated,
     List.length updated = List.length db /\
     snd (identify_contact now req db)
     = updated ++ [mkContact (next_id db) (req_phoneNumber req) (req_email req)
                             (Some (id main)) secondary now now]) /\
  (~ supplies_new_value req (groups_of db (main :: rest)) ->
   List.length (snd (identify_contact now req db)) = List.length db).
Proof.
  intros Hwf Hp. rewrite (identify_contact_matched now req db main rest Hp). simpl.
  split; intros H.
  - apply (new_information_groups now req db main rest Hwf Hp) in H.
    rewrite (new_row_created now req db main rest H).
    eexists. split; [|reflexivity]. apply length_map.
  - destruct (new_information req
                (all_related_contacts db main (merge db main (main :: rest)))) eqn:E.
    + apply (new_information_groups now req db main rest Hwf Hp) in E. contradiction.
    + rewrite (no_row_created now req db main rest E). apply length_map.
Qed.

(** X7 (lines 243-250): on a table that satisfies the data-model
    invariants, the secondaryContactIds of a response are strictly
    ascending (sorted, no duplicates), do not contain the primary's id,
    and are exactly the ids of the rows of the new table that are linked
    to the reported primary. *)
Theorem secondary_ids_are_the_linked_rows (now : Z) (req : IdentifyRequest)
        (db : Store) (resp : ContactResponseData) (db' : Store) :
  wf_store db -> identify_contact now req db = (inr resp, db') ->
  StronglySorted Z.lt (secondaryContactIds resp) /\
  ~ In (primaryContatctId resp) (secondaryContactIds resp) /\
  forall i, In i (secondaryContactIds resp) <->
            exists c, In c db' /\ id c = i /\
                      linkedId c = Some (primaryContatctId resp).
Proof.
  intros Hwf Hres.
  destruct (identify_contact_cases now req db)
    as [[e [H Hidx]]|[(Hs & Hu & H)|(main & rest & Hp & H)]];
    rewrite H in Hres; [discriminate | |]; injection Hres as <- <-.
  - simpl. split; [constructor|]. split; [intros []|].
    intros i. split; [intros []|]. intros [c (Hc & _ & Hl)].
    apply in_app_or in Hc. destruct Hc as [Hc|[<-|[]]].
    + now apply (no_links_to_fresh db c Hwf Hc).
    + discriminate.
  - pose proof (wf_db1 now req db main rest Hwf Hp) as Hwf1.
    pose proof (stored_main now req db main rest Hwf Hp) as Hst.
    apply stored_Some in Hst. destruct Hst as [Hin _].
    destruct (secondary_ids_spec (committed now req db main rest) main Hwf1 Hin
                (resolved_main_primary req db main rest Hwf Hp))
      as (E & H1 & H2 & H3).
    rewrite E. tauto.
Qed.

(** X8 (lines 186-241): on a table that satisfies the data-model
    invariants, the response always lists what the request supplied: a
    supplied email is among the emails and a supplied phone number is
    among the phone numbers. *)
Theorem response_lists_supplied_values (now : Z) (req : IdentifyRequest)
        (db : Store) (resp : ContactResponseData) (db' : Store) :
  wf_store db -> identify_contact now req db = (inr resp, db') ->
  (forall e, truthy (req_email req) = Some e -> In e (emails resp)) /\
  (forall p, truthy (req_phoneNumber req) = Some p -> In p (phoneNumbers resp)).
Proof.
  intros Hwf Hres.
  destruct (identify_contact_cases now req db)
    as [[e [H Hidx]]|[(Hs & Hu & H)|(main & rest & Hp & H)]];
    rewrite H in Hres; [discriminate | |]; injection Hres as <- <-.
  - simpl. split; intros s Hs'; rewrite Hs'; now left.
  - unfold build_response. cbv zeta.
    rewrite (refresh_main now req db main rest Hwf Hp).
    cbn [emails phoneNumbers].
    split; intros s Hs'.
    + destruct (group_has_supplied now req db main rest Hwf Hp email
                  (req_email req) s (or_introl (conj eq_refl eq_refl)) Hs')
        as [c [Hc Hv]].
      apply truthy_Some in Hs'. destruct Hs' as [_ Hne].
      apply ordered_values_complete; [assumption|].
      apply truthy_values_In. exists c. split; [exact Hc|].
      rewrite Hv. now apply truthy_of_Some.
    + destruct (group_has_supplied now req db main rest Hwf Hp phoneNumber
                  (req_phoneNumber req) s (or_intror (conj eq_refl eq_refl)) Hs')
        as [c [Hc Hv]].
      apply truthy_Some in Hs'. destruct Hs' as [_ Hne].
      apply ordered_values_complete; [assumption|].
      apply truthy_values_In. exists c. split; [exact Hc|].
      rewrite Hv. now apply truthy_of_Some.
Qed.

(** X9 (lines 113-250): on a table that satisfies the data-model
    invariants, every row that carried the supplied email or the supplied
    phone number belongs to the identity the response reports: its id is
    the primary id or one of the secondary ids. *)
Theorem matched_rows_join_the_reported_identity (now : Z) (req : IdentifyRequest)
        (db : Store) (resp : ContactResponseData) (db' : Store) :
  wf_store db -> identify_contact now req db = (inr resp, db') ->
  forall c, In c db -> matches req c ->
            id c = primaryContatctId resp \/ In (id c) (secondaryContactIds resp).
Proof.
  intros Hwf Hres c Hc Hm.
  pose proof (proj1 (wf_store_spec db) Hwf) as [Hnd _].
  destruct (identify_contact_cases now req db)
    as [[e [H Hidx]]|[(Hs & Hu & H)|(main & rest & Hp & H)]];
    rewrite H in Hres; [discriminate | |]; injection Hres as <- <-.
  - exfalso.
    assert (Hin : In c (unique_matching_contacts req db))
      by (apply (unique_matching_contacts_spec req db c Hnd); tauto).
    rewrite Hu in Hin. destruct Hin.
  - pose proof (wf_db1 now req db main rest Hwf Hp) as Hwf1.
    pose proof (stored_main now req db main rest Hwf Hp) as Hst.
    apply stored_Some in Hst. destruct Hst as [Hin _].
    destruct (secondary_ids_spec (committed now req db main rest) main Hwf1 Hin
                (resolved_main_primary req db main rest Hwf Hp))
      as (E & _ & _ & H3).
    rewrite E.
    pose proof (matched_in_groups now req db main rest Hwf Hp c Hc Hm) as Hg.
    apply (groups_member now req db main rest Hwf Hp) in Hg.
    destruct Hg as [->|[_ Hl]]; [now left|]. right.
    apply H3. exists (commit_row now db (id main) rest c).
    split; [|split; [apply commit_row_id | exact Hl]].
    unfold committed. apply in_or_app. left. now apply in_map.
Qed.

(** X10 (lines 172-211): on a table that satisfies the data-model
    invariants, when the matched rows resolve to [main :: rest], the
    group of [main] in the new table consists of the members of the
    resolved groups and, when one was created, the new row, and of no
    other row. *)
Theorem merged_group_is_union_of_resolved_groups (now : Z) (req : IdentifyRequest)
        (db : Store) (main : Contact) (rest : list Contact) :
  wf_store db -> primary_contacts req db = main :: rest ->
  forall i,
    (exists c', In c' (group_of (snd (identify_contact now req db)) main) /\
                id c' = i) <->
    ((exists c, In c (groups_of db (main :: rest)) /\ id c = i) \/
     (i = next_id db /\ In i (map id (snd (identify_contact now req db))))).
Proof.
  intros Hwf Hp i. rewrite (identify_contact_matched now req db main rest Hp).
  simpl. split.
  - intros [c' [Hc' Hid]].
    apply (group_after_commit now req db main rest Hwf Hp) in Hc'.
    destruct Hc' as [[c [Hc ->]]|[Hn ->]].
    + left. exists c. split; [assumption|]. now rewrite commit_row_id in Hid.
    + right. simpl in Hid. subst i. split; [reflexivity|].
      rewrite (new_row_created now req db main rest Hn), map_app.
      apply in_or_app. right. now left.
  - intros [[c [Hc Hid]]|[-> Hin]].
    + exists (commit_row now db (id main) rest c).
      split; [|now rewrite commit_row_id].
      apply (group_after_commit now req db main rest Hwf Hp).
      left. exists c. split; [assumption | reflexivity].
    + destruct (new_information req
                  (all_related_contacts db main (merge db main (main :: rest))))
        eqn:E.
      * eexists. split.
        -- apply (group_after_commit now req db main rest Hwf Hp). right.
           split; [exact E | reflexivity].
        -- reflexivity.
      * exfalso. rewrite (no_row_created now req db main rest E) in Hin.
        rewrite map_id_map in Hin by (intros c; apply commit_row_id).
        now apply (next_id_fresh db).
Qed.

(** X11 (lines 95-253): on a table that satisfies the data-model
    invariants, serving the same request again right away, at whatever
    clock value, changes nothing and gives the same answer: the second
    call returns what the first returned and leaves the table the first
    call left. *)
Theorem replayed_request_changes_nothing (now1 now2 : Z) (req : IdentifyRequest)
        (db : Store) :
  wf_store db ->
  identify_contact now2 req (snd (identify_contact now1 req db))
  = identify_contact now1 req db.
Proof.
  intros Hwf.
  destruct (is_truthy (req_email req)) eqn:He;
    [|destruct (is_truthy (req_phoneNumber req)) eqn:Hph].
  3: { rewrite (identify_contact_unsupplied now1 req db He Hph). simpl.
       now apply identify_contact_unsupplied. }
  all: assert (Hs : supplied req) by (unfold supplied; tauto).
  all: destruct (unique_matching_contacts req db) as [|u us] eqn:Eu.
  all: try (rewrite (identify_contact_unmatched now1 req db Hs Eu); simpl;
            now apply replay_created).
  all: assert (Hne : unique_matching_contacts req db <> [])
         by (rewrite Eu; discriminate).
  all: pose proof (primary_contacts_nonempty req db Hwf Hne) as Hpn.
  all: destruct (primary_contacts req db) as [|main rest] eqn:Ep; [congruence|].
  all: rewrite (identify_contact_matched now1 req db main rest Ep); simpl.
  all: now apply replay_resolved.
Qed.

End FurtherClaims.

(** * Concrete inputs

    ** Where the claims as written fail *)

Local Open Scope string_scope.

(** C1, the code at the failing input: two primaries created in the same
    clock tick have the same createdAt.  A request that matches the younger
    id by email and the older id by phone number resolves them in match
    order, the stable sort leaves them so, and the primary with the LARGER
    id survives: row 1, the row created first, is demoted and linked to
    row 2, although lines 163-169 mean to keep the oldest. *)
Lemma merge_tie_survivor_has_larger_id :
  run (PS := insertion_order) tie_requests [] = tie_store /\
  wf_store tie_store /\
  map id (primary_contacts tie_request tie_store) = [2; 1] /\
  map createdAt (primary_contacts tie_request tie_store) = [0; 0] /\
  snd (identify_contact (PS := insertion_order) 5 tie_request tie_store)
  = [mkContact 1 (Some "1") (Some "a@x.com") (Some 2) secondary 0 5;
     mkContact 2 (Some "2") (Some "b@x.com") None primary 0 0] /\
  ~ (forall main rest,
        primary_contacts tie_request tie_store = main :: rest ->
        forall p, In p rest ->
                  createdAt main < createdAt p \/
                  (createdAt main = createdAt p /\ id main < id p)).
Proof.
  repeat (split; [vm_compute; reflexivity|]).
  intros H.
  specialize (H _ _ eq_refl
                (mkContact 1 (Some "1") (Some "a@x.com") None primary 0 0)
                (or_introl eq_refl)).
  simpl in H. lia.
Qed.

(** The same two rows with the request mirrored (row 1 matched by email,
    row 2 by phone number): now row 1 survives.  On a tie the survivor is
    decided by which field happened to match which row. *)
Lemma merge_tie_mirrored_request_keeps_smaller_id :
  map id (primary_contacts (obs "a@x.com" "2") tie_store) = [1; 2] /\
  snd (identify_contact (PS := insertion_order) 5 (obs "a@x.com" "2") tie_store)
  = [mkContact 1 (Some "1") (Some "a@x.com") None primary 0 0;
     mkContact 2 (Some "2") (Some "b@x.com") (Some 1) secondary 0 5].
Proof. split; vm_compute; reflexivity. Qed.

(** C5, counterexample: the emails other than the primary's own are
    produced by iterating a set, and an iteration order other than
    first-encounter order is admissible.  With the set iterated in
    reverse, the group a, b, c (secondaries 2 and 3 in id order) is
    reported as a, c, b. *)
Lemma response_order_is_not_first_encounter :
  run (PS := insertion_order) fan_requests [] = fan_store /\
  wf_store fan_store /\
  emails_of_response reverse_order 9 fan_request fan_store
  = ["a@x.com"; "c@x.com"; "b@x.com"] /\
  first_encounter_order (Some "a@x.com") email
    (secondary_contacts fan_store
       (mkContact 1 (Some "1") (Some "a@x.com") None primary 1 1))
  = ["a@x.com"; "b@x.com"; "c@x.com"] /\
  ~ (forall (PS : PySet) resp db' main,
        identify_contact 9 fan_request fan_store = (inr resp, db') ->
        stored db' (primaryContatctId resp) = Some main ->
        emails resp
        = first_encounter_order (email main) email (secondary_contacts db' main)).
Proof.
  repeat (split; [vm_compute; reflexivity|]).
  intros H.
  specialize (H reverse_order _ _ _ eq_refl eq_refl).
  vm_compute in H. discriminate.
Qed.

(** C9, counterexample: row 3 is created as a primary, demoted under
    row 2 by the fourth request and re-pointed to row 1 by the fifth,
    when row 2 is absorbed in turn: its linkedId is mutated twice. *)
Lemma linkedId_is_mutated_twice :
  map (fun s => option_map linkedId (stored s 3))
      (history (PS := insertion_order) repoint_requests [])
  = [None; None; None; Some None; Some (Some 2); Some (Some 1)] /\
  mutations (option_eqb Z.eqb) linkedId 3
            (history (PS := insertion_order) repoint_requests [])
  = 2%nat /\
  ~ (forall (PS : PySet) reqs db i,
        wf_store db ->
        (mutations (option_eqb Z.eqb) linkedId i (history reqs db) <= 1)%nat).
Proof.
  repeat (split; [vm_compute; reflexivity|]).
  intros H.
  specialize (H insertion_order repoint_requests [] 3 eq_refl).
  vm_compute in H. lia.
Qed.

(** ** The theorems at concrete inputs *)

Lemma unsupplied_request_is_rejected_witness :
  is_truthy None = false /\
  is_truthy (Some EmptyString) = false /\
  identify_contact (PS := insertion_order) 7 (mkRequest None (Some EmptyString))
                   tie_store
  = (inl (HTTPException HTTP_400_BAD_REQUEST), tie_store).
Proof.
  split; [reflexivity|]. split; [reflexivity|].
  apply (unsupplied_request_is_rejected (PS := insertion_order)); reflexivity.
Defined.

Lemma unmatched_request_creates_primary_witness :
  supplied (obs "c@x.com" "3") /\
  no_match (obs "c@x.com" "3") tie_store /\
  exists new_contact,
    snd (identify_contact (PS := insertion_order) 7 (obs "c@x.com" "3") tie_store)
    = (tie_store ++ [new_contact])%list /\
    linkPrecedence new_contact = primary /\ id new_contact = 3.
Proof.
  assert (Hs : supplied (obs "c@x.com" "3")) by (left; reflexivity).
  assert (Hn : no_match (obs "c@x.com" "3") tie_store).
  { intros c Hc. vm_compute in Hc.
    destruct Hc as [<-|[<-|[]]]; split; intros s Hs'; vm_compute in Hs';
      injection Hs' as <-; discriminate. }
  split; [exact Hs|]. split; [exact Hn|].
  destruct (unmatched_request_creates_primary (PS := insertion_order)
              7 (obs "c@x.com" "3") tie_store Hs Hn)
    as [new_contact (H1 & H2 & _)].
  exists new_contact. rewrite H1. simpl. split; [reflexivity|].
  split; [exact H2|].
  vm_compute in H1. injection H1 as Hid _. now symmetry.
Defined.

Lemma single_group_attach_or_noop_witness :
  primary_contacts (obs "d@x.com" "1") fan_store
  = [mkContact 1 (Some "1") (Some "a@x.com") None primary 1 1] /\
  snd (identify_contact (PS := insertion_order) 9 (obs "d@x.com" "1") fan_store)
  = (fan_store
       ++ [mkContact 4 (Some "1") (Some "d@x.com") (Some 1) secondary 9 9])%list.
Proof.
  split; [reflexivity|].
  apply (proj1 (single_group_attach_or_noop (PS := insertion_order)
                  9 (obs "d@x.com" "1") fan_store _ eq_refl)).
  left. exists "d@x.com". split; [reflexivity|].
  intros c Hc. vm_compute in Hc.
  destruct Hc as [<-|[<-|[<-|[]]]]; discriminate.
Defined.

Lemma repeated_request_is_idempotent_witness :
  supplied (obs "a@x.com" "1") /\
  exists p,
    snd (identify_contact (PS := insertion_order) 1 (obs "a@x.com" "1") []) = [p] /\
    linkPrecedence p = primary /\ linkedId p = None /\
    snd (identify_contact (PS := insertion_order) 2 (obs "a@x.com" "1") [p]) = [p].
Proof.
  assert (Hs : supplied (obs "a@x.com" "1")) by (left; reflexivity).
  split; [exact Hs|].
  exact (repeated_request_is_idempotent (PS := insertion_order) 1 2 _ Hs).
Defined.

Lemma resolver_yields_owners_witness :
  wf_store chain_store /\
  fst (identify_contact (PS := insertion_order) 5 (obs "d@x.com" "3") chain_store)
  <> inl IndexError.
Proof.
  split; [reflexivity|].
  apply (resolver_yields_owners (PS := insertion_order) 5 (obs "d@x.com" "3")
           chain_store eq_refl).
Defined.

Lemma merge_changes_only_links_witness :
  wf_store chain_store /\
  exists updated added,
    snd (identify_contact (PS := insertion_order) 5 chain_request chain_store)
    = (updated ++ added)%list /\
    Forall2 (frame (tl (primary_contacts chain_request chain_store)))
            chain_store updated.
Proof.
  split; [reflexivity|].
  exact (merge_changes_only_links (PS := insertion_order) 5 chain_request
           chain_store eq_refl).
Defined.

Lemma links_stay_one_hop_witness :
  wf_store chain_store /\
  wf_store (snd (identify_contact (PS := insertion_order) 5 chain_request chain_store)).
Proof.
  split; [reflexivity|].
  exact (proj1 (links_stay_one_hop (PS := insertion_order) 5 chain_request
                  chain_store eq_refl)).
Defined.

Lemma response_lists_primary_values_first_witness :
  wf_store fan_store /\
  exists main,
    stored fan_store 1 = Some main /\
    linkPrecedence main = primary /\
    main = mkContact 1 (Some "1") (Some "a@x.com") None primary 1 1 /\
    primary_first email main (group_of fan_store main)
                  ["a@x.com"; "c@x.com"; "b@x.com"] /\
    primary_first phoneNumber main (group_of fan_store main) ["1"].
Proof.
  split; [reflexivity|].
  destruct (response_lists_primary_values_first (PS := reverse_order)
              9 fan_request fan_store
              (mkResponse 1 ["a@x.com"; "c@x.com"; "b@x.com"] ["1"] [2; 3])
              fan_store eq_refl eq_refl)
    as [main (H1 & H2 & H3 & _ & H5 & H6)].
  exists main. split; [exact H1|]. split; [exact H2|].
  split; [exact (H3 _ _ eq_refl)|]. split; [exact H5 | exact H6].
Defined.

Lemma precedence_changes_at_most_once_witness :
  wf_store chain_store /\
  (mutations LinkPrecedence_eqb linkPrecedence 2
             (history (PS := insertion_order) [(5%Z, chain_request)] chain_store)
   <= 1)%nat.
Proof.
  split; [reflexivity|].
  exact (proj1 (precedence_changes_at_most_once (PS := insertion_order)
                  [(5, chain_request)] chain_store 2 eq_refl)).
Defined.

(** ** The further theorems at concrete inputs *)

Lemma matcher_returns_each_match_once_witness :
  NoDup (map id fan_store) /\
  NoDup (unique_matching_contacts (obs "b@x.com" "1") fan_store).
Proof.
  assert (Hnd : NoDup (map id fan_store))
    by (apply distinct_int_NoDup; reflexivity).
  split; [exact Hnd|].
  exact (proj1 (matcher_returns_each_match_once (obs "b@x.com" "1") fan_store Hnd)).
Defined.

Lemma orphan_matches_raise_IndexError_witness :
  identify_contact (PS := insertion_order) 5 orphan_request orphan_store
  = (inl IndexError, orphan_store).
Proof.
  apply (proj2 (orphan_matches_raise_IndexError (PS := insertion_order)
                  5 orphan_request orphan_store)).
  split.
  - vm_compute. discriminate.
  - intros c Hc. vm_compute in Hc. destruct Hc as [<-|[]]. split; reflexivity.
Defined.

Lemma supplied_request_is_answered_witness :
  wf_store chain_store /\ supplied chain_request /\
  exists resp,
    fst (identify_contact (PS := insertion_order) 5 chain_request chain_store)
    = inr resp.
Proof.
  assert (Hs : supplied chain_request) by (left; reflexivity).
  split; [reflexivity|]. split; [exact Hs|].
  exact (supplied_request_is_answered (PS := insertion_order) 5 chain_request
           chain_store eq_refl Hs).
Defined.

Lemma new_secondary_iff_new_to_resolved_groups_witness :
  wf_store chain_store /\
  List.length (snd (identify_contact (PS := insertion_order) 5 chain_request
                                     chain_store))
  = List.length chain_store.
Proof.
  split; [reflexivity|].
  apply (proj2 (new_secondary_iff_new_to_resolved_groups (PS := insertion_order)
                  5 chain_request chain_store _ _ eq_refl eq_refl)).
  intros [[e [He H]]|[p [Hp H]]].
  - vm_compute in He. injection He as <-.
    apply (H (mkContact 1 (Some "1") (Some "a@x.com") None primary 1 1));
      [vm_compute; tauto | reflexivity].
  - vm_compute in Hp. injection Hp as <-.
    apply (H (mkContact 2 (Some "2") (Some "b@x.com") None primary 2 2));
      [vm_compute; tauto | reflexivity].
Defined.

Lemma secondary_ids_are_the_linked_rows_witness :
  wf_store chain_store /\
  identify_contact (PS := insertion_order) 5 chain_request chain_store
  = (inr chain_response, chain_store_after) /\
  StronglySorted Z.lt (secondaryContactIds chain_response).
Proof.
  split; [reflexivity|]. split; [reflexivity|].
  exact (proj1 (secondary_ids_are_the_linked_rows (PS := insertion_order)
                  5 chain_request chain_store chain_response chain_store_after
                  eq_refl eq_refl)).
Defined.

Lemma response_lists_supplied_values_witness :
  wf_store chain_store /\
  In "a@x.com" (emails chain_response) /\ In "2" (phoneNumbers chain_response).
Proof.
  split; [reflexivity|].
  destruct (response_lists_supplied_values (PS := insertion_order)
              5 chain_request chain_store chain_response chain_store_after
              eq_refl eq_refl) as [H1 H2].
  split; [exact (H1 _ eq_refl) | exact (H2 _ eq_refl)].
Defined.

Lemma matched_rows_join_the_reported_identity_witness :
  wf_store chain_store /\
  matches chain_request (mkContact 2 (Some "2") (Some "b@x.com") None primary 2 2) /\
  (2 = primaryContatctId chain_response \/ In 2 (secondaryContactIds chain_response)).
Proof.
  assert (Hm : matches chain_request
                 (mkContact 2 (Some "2") (Some "b@x.com") None primary 2 2)).
  { right. exists "2". split; reflexivity. }
  split; [reflexivity|]. split; [exact Hm|].
  exact (matched_rows_join_the_reported_identity (PS := insertion_order)
           5 chain_request chain_store chain_response chain_store_after
           eq_refl eq_refl _ (or_intror (or_introl eq_refl)) Hm).
Defined.

Lemma merged_group_is_union_of_resolved_groups_witness :
  wf_store chain_store /\
  exists c',
    In c' (group_of (snd (identify_contact (PS := insertion_order) 5
                            chain_request chain_store))
                    (mkContact 1 (Some "1") (Some "a@x.com") None primary 1 1)) /\
    id c' = 3.
Proof.
  split; [reflexivity|].
  apply (proj2 (merged_group_is_union_of_resolved_groups (PS := insertion_order)
                  5 chain_request chain_store _ _ eq_refl eq_refl 3)).
  left. exists (mkContact 3 (Some "3") (Some "c@x.com") (Some 2) secondary 3 4).
  split; [|reflexivity]. vm_compute. tauto.
Defined.

Lemma replayed_request_changes_nothing_witness :
  wf_store chain_store /\
  identify_contact (PS := insertion_order) 6 chain_request
    (snd (identify_contact (PS := insertion_order) 5 chain_request chain_store))
  = identify_contact (PS := insertion_order) 5 chain_request chain_store.
Proof.
  split; [reflexivity|].
  exact (replayed_request_changes_nothing (PS := insertion_order) 5 6
           chain_request chain_store eq_refl).
Defined.


Lemma request_appends_at_most_one_row_witness :
  rowids_in_range tie_store /\
  exists added,
    map id (snd (identify_contact (PS := insertion_order) 7 (obs "c@x.com" "3")
                                  tie_store))
    = (map id tie_store ++ added)%list /\
    (added = [] \/
     exists i, added = [i] /\ forall j, In j (map id tie_store) -> j < i).
Proof.
  assert (Hr : rowids_in_range tie_store).
  { intros i Hi. vm_compute in Hi. destruct Hi as [<-|[<-|[]]]; lia. }
  split; [exact Hr|].
  exact (request_appends_at_most_one_row (PS := insertion_order) 7
           (obs "c@x.com" "3") tie_store Hr).
Defined.
